(** * Verification of the sudoku_solver_wasm board model and compact codec

    Shallow embedding of [src/util.rs] (run-length codec),
    [src/sudoku_data.rs] (board cells, [set], [unset], [Display], [FromStr])
    and [src/actions.rs] (folding solver results back onto the board).

    A Rust [char] is modelled as its Unicode scalar value ([N]); a Rust
    [String] as the list of its chars.  A [usize] count is a [nat]. *)

From Stdlib Require Import List Arith Lia NArith ZArith Bool String Ascii.
From Stdlib Require Import FunctionalExtensionality.
Import ListNotations.
Open Scope nat_scope.

(** Option bind, used as the [?] operator of the Rust code. *)
Definition obind {A B : Type} (o : option A) (f : A -> option B) : option B :=
  match o with
  | Some a => f a
  | None => None
  end.

Notation "x <-? a ;; b" := (obind a (fun x => b))
  (at level 61, a at next level, right associativity).

(** Rust chars as code points; [chars s] reads an ASCII literal. *)
Definition rchar := N.

Fixpoint chars (s : string) : list rchar :=
  match s with
  | EmptyString => []
  | String a r => N.of_nat (nat_of_ascii a) :: chars r
  end.

(* ------------------------------------------------------------------ *)
(** ** The codec of [src/util.rs] *)

Module Codec.

(** [const fn get_count(c: char) -> Option<usize>] *)
Definition get_count (c : rchar) : option nat :=
  if ((97 <=? c)%N && (c <=? 122)%N)%bool then Some (N.to_nat (c - 97))
  else if ((65 <=? c)%N && (c <=? 90)%N)%bool then Some (N.to_nat (c - 65 + 26))
  else None.

(** [const fn get_letter(idx: usize) -> Option<char>]; the [as u8 as char]
    casts do not change the values in range. *)
Definition get_letter (idx : nat) : option rchar :=
  if idx <=? 25 then Some (N.of_nat (97 + idx))
  else if idx <=? 52 then Some (N.of_nat (65 + idx - 26))
  else None.

(** [fn push_if_full(compressed: &mut String, c: char, count: usize) -> Option<usize>];
    the mutated string is threaded through the result. *)
Definition push_if_full (compressed : list rchar) (c : rchar) (count : nat)
  : option (list rchar * nat) :=
  if count =? 52 then
    l <-? get_letter (count - 1) ;; Some (compressed ++ [c; l], 1)
  else Some (compressed, count + 1).

(** [fn push_repeated(compressed: &mut String, c: char, count: usize) -> Option<()>] *)
Definition push_repeated (compressed : list rchar) (c : rchar) (count : nat)
  : option (list rchar) :=
  if 1 <? count then
    l <-? get_letter (count - 1) ;; Some (compressed ++ [c; l])
  else Some (compressed ++ [c]).

(** The [for c in s.chars()] loop of [compress_string], followed by the final
    [push_repeated]; the state is [(compressed, count, last_char)]. *)
Fixpoint compress_loop (cs : list rchar) (compressed : list rchar) (count : nat)
    (last_char : rchar) : option (list rchar) :=
  match cs with
  | [] => push_repeated compressed last_char count
  | c :: rest =>
      if N.eqb c last_char then
        p <-? push_if_full compressed c count ;;
        compress_loop rest (fst p) (snd p) last_char
      else
        compressed' <-? push_repeated compressed last_char count ;;
        compress_loop rest compressed' 1 c
  end.

(** [pub fn compress_string(s: &str) -> Option<String>] *)
Definition compress_string (s : list rchar) : option (list rchar) :=
  match s with
  | [] => Some []
  | first :: _ => compress_loop s [] 0 first
  end.

(** [String::pop]: removes and returns the last char. *)
Definition pop (s : list rchar) : option (list rchar * rchar) :=
  match rev s with
  | [] => None
  | x :: r => Some (rev r, x)
  end.

(** The loop of [decompress_string], from an accumulated [decompressed]. *)
Fixpoint decompress_from (decompressed : list rchar) (cs : list rchar)
  : option (list rchar) :=
  match cs with
  | [] => Some decompressed
  | c :: rest =>
      match get_count c with
      | Some idx =>
          p <-? pop decompressed ;;
          decompress_from (fst p ++ repeat (snd p) (idx + 1)) rest
      | None => decompress_from (decompressed ++ [c]) rest
      end
  end.

(** [pub fn decompress_string(s: &str) -> Option<String>] *)
Definition decompress_string (s : list rchar) : option (list rchar) :=
  decompress_from [] s.

(** The codec alphabet of the spec: ['0'-'9'] and ['.']. *)
Definition is_codec_char (c : rchar) : bool :=
  ((48 <=? c)%N && (c <=? 57)%N) || (c =? 46)%N.

(** [fn is_valid_game_str(game_str: &str) -> bool] (byte length and char
    count agree on the accepted, ASCII-only strings). *)
Definition is_valid_game_str (s : list rchar) : bool :=
  (List.length s =? 81) && forallb (fun c => ((48 <=? c)%N && (c <=? 57)%N) || (c =? 46)%N) s.

(** Not a run-length letter. *)
Definition not_letter (c : rchar) : Prop := get_count c = None.

End Codec.

(* ------------------------------------------------------------------ *)
(** ** The board of [src/sudoku_data.rs] *)

Module Board.

(** [[bool; 9]]: the candidate array of a cell, one field per index. *)
Record Choices := mkChoices {
  ch0 : bool; ch1 : bool; ch2 : bool; ch3 : bool; ch4 : bool;
  ch5 : bool; ch6 : bool; ch7 : bool; ch8 : bool }.

Definition all_choices (x : bool) : Choices := mkChoices x x x x x x x x x.

(** [choices[i]]; the code only indexes it below 9. *)
Definition choice_get (ch : Choices) (i : nat) : bool :=
  match i with
  | 0 => ch0 ch | 1 => ch1 ch | 2 => ch2 ch | 3 => ch3 ch | 4 => ch4 ch
  | 5 => ch5 ch | 6 => ch6 ch | 7 => ch7 ch | 8 => ch8 ch
  | _ => false
  end.

(** [choices[i] = x] *)
Definition choice_set (ch : Choices) (i : nat) (x : bool) : Choices :=
  let '(mkChoices a0 a1 a2 a3 a4 a5 a6 a7 a8) := ch in
  match i with
  | 0 => mkChoices x a1 a2 a3 a4 a5 a6 a7 a8
  | 1 => mkChoices a0 x a2 a3 a4 a5 a6 a7 a8
  | 2 => mkChoices a0 a1 x a3 a4 a5 a6 a7 a8
  | 3 => mkChoices a0 a1 a2 x a4 a5 a6 a7 a8
  | 4 => mkChoices a0 a1 a2 a3 x a5 a6 a7 a8
  | 5 => mkChoices a0 a1 a2 a3 a4 x a6 a7 a8
  | 6 => mkChoices a0 a1 a2 a3 a4 a5 x a7 a8
  | 7 => mkChoices a0 a1 a2 a3 a4 a5 a6 x a8
  | 8 => mkChoices a0 a1 a2 a3 a4 a5 a6 a7 x
  | _ => ch
  end.

(** [pub enum Cell]; a [u8] value is a [nat], an [i32] delay a [Z]. *)
Inductive Cell :=
| Empty (choices : Choices)
| Value (value : nat) (choices : Choices)
| FixedValue (value : nat)
| AnimatedValue (value : nat) (choices : Choices) (fade_delay_ms : Z)
    (animation : string)
| Error (value : nat) (choices : Choices).

(** [impl Default for Cell] *)
Definition default_cell : Cell := Empty (all_choices true).

Definition is_empty (x : Cell) : bool :=
  match x with Empty _ => true | _ => false end.

(** The digit a cell carries, if any. *)
Definition cell_value (x : Cell) : option nat :=
  match x with
  | Empty _ => None
  | Value v _ | FixedValue v | AnimatedValue v _ _ _ | Error v _ => Some v
  end.

(** [SudokuData { rows: [SudokuRow; 9] }] with [SudokuRow { cells: [Cell; 9] }]:
    [b r c] is [rows[r].cells[c]]. *)
Definition Board := nat -> nat -> Cell.

Definition default_board : Board := fun _ _ => default_cell.

(** [rows[r].cells[c] = x] *)
Definition put (b : Board) (r c : nat) (x : Cell) : Board :=
  fun r' c' => if (r' =? r) && (c' =? c) then x else b r' c'.

(** The 81 positions in the row-major order of the nested [for] loops. *)
Definition positions : list (nat * nat) :=
  flat_map (fun i => map (fun j => (i, j)) (seq 0 9)) (seq 0 9).

(** [fn remove_choice(&mut self, row, col, value: u8)] *)
Definition remove_choice (b : Board) (row col value : nat) : Board :=
  match b row col with
  | Empty ch => put b row col (Empty (choice_set ch (value - 1) false))
  | _ => b
  end.

(** [fn get_box_positions(row, col) -> Vec<(usize, usize)>] *)
Definition get_box_positions (row col : nat) : list (nat * nat) :=
  flat_map (fun i => map (fun j => (3 * (row / 3) + i, 3 * (col / 3) + j)) (seq 0 3))
    (seq 0 3).

(** [pub fn set(&mut self, row, col, value: u8, fixed: bool)] *)
Definition set (b : Board) (row col value : nat) (fixed : bool) : Board :=
  match b row col with
  | Empty ch =>
      let b1 := put b row col (if fixed then FixedValue value else Value value ch) in
      let b2 := fold_left
                  (fun b i => remove_choice (remove_choice b row i value) i col value)
                  (seq 0 9) b1 in
      fold_left (fun b '(r, c) => remove_choice b r c value)
        (get_box_positions row col) b2
  | _ => b
  end.

(** [pub fn set_fade(&mut self, row, col, value: u8, fade_delay_ms: i32)] *)
Definition set_fade (b : Board) (row col value : nat) (fade_delay_ms : Z) : Board :=
  match b row col with
  | Empty _ =>
      put b row col (AnimatedValue value (all_choices false) fade_delay_ms "fade-in")
  | _ => b
  end.

(** The solver's grid [rust_sudoku_solver::Sudoku] as the code reads it: the
    public arrays [digits] and [bitboard] (81 entries each), indexed by
    [9 * row + col]. *)
Record Sudoku := mkSudoku { digits : nat -> nat; bitboard : nat -> Z }.

(** [pub fn to_choices(bitboard: usize) -> [bool; 9]] *)
Definition to_choices (bb : Z) : Choices :=
  fold_left (fun ch i => choice_set ch (i - 1) (Z.testbit bb (Z.of_nat i)))
    (seq 1 9) (all_choices false).

(** [solution.digits[idx] as u8] *)
Definition digit_u8 (sol : Sudoku) (idx : nat) : nat := digits sol idx mod 256.

(** [pub fn update_from_sudoku(sudoku: &mut SudokuData, solution: &Sudoku, fixed: bool)]
    (identical in [actions.rs] and [hotkeys.rs]). *)
Definition update_from_sudoku (b : Board) (sol : Sudoku) (fixed : bool) : Board :=
  fold_left (fun b i =>
    fold_left (fun b j =>
      let idx := 9 * i + j in
      if digits sol idx =? 0 then put b i j (Empty (to_choices (bitboard sol idx)))
      else set b i j (digit_u8 sol idx) fixed)
    (seq 0 9) b)
  (seq 0 9) b.

(** [pub fn update_from_sudoku_animated(sudoku, solution, _fixed)], the
    shuffled visit order [vec] being a parameter; returns the board and the
    final [duration]. *)
Definition update_from_sudoku_animated (order : list nat) (b : Board) (sol : Sudoku)
  : Board * Z :=
  fold_left (fun '(b, duration) idx =>
    let i := idx / 9 in
    let j := idx mod 9 in
    let b' := if digits sol idx =? 0
              then put b i j (Empty (to_choices (bitboard sol idx)))
              else set_fade b i j (digit_u8 sol idx) duration in
    (b', (duration + 5)%Z))
  order (b, 0%Z).

(** The external solver crate enters through [Sudoku::default], [place] and
    [solver::solve]. *)
Section External.
Variable sudoku_default : Sudoku.
Variable place : Sudoku -> nat -> nat -> Sudoku.
Variable solve : Sudoku -> option Sudoku.

(** [impl From<&SudokuData> for Sudoku] *)
Definition sudoku_of_board (b : Board) : Sudoku :=
  fold_left (fun s i =>
    fold_left (fun s j =>
      match b i j with
      | Empty _ => s
      | Value v _ | FixedValue v | AnimatedValue v _ _ _ | Error v _ =>
          place s (i * 9 + j) v
      end)
    (seq 0 9) s)
  (seq 0 9) sudoku_default.

(** [pub fn fixed_sudoku(&self) -> Sudoku] *)
Definition fixed_sudoku (b : Board) : Sudoku :=
  fold_left (fun s i =>
    fold_left (fun s j =>
      match b i j with
      | Empty _ | Value _ _ | Error _ _ | AnimatedValue _ _ _ _ => s
      | FixedValue v => place s (i * 9 + j) v
      end)
    (seq 0 9) s)
  (seq 0 9) sudoku_default.

(** [pub fn unset(&mut self, row, col)] *)
Definition unset (b : Board) (row col : nat) : Board :=
  match b row col with
  | Empty _ | FixedValue _ => b
  | Value _ ch | Error _ ch | AnimatedValue _ ch _ _ =>
      let b1 := put b row col (Empty ch) in
      update_from_sudoku b1 (sudoku_of_board b1) false
  end.

(** [pub fn compare_with_solution(sudoku: &mut SudokuData) -> Result<()>]:
    [None] is the [Err] returned by [?] before any cell is touched. *)
Definition compare_with_solution (b : Board) : option Board :=
  sol <-? solve (fixed_sudoku b) ;;
  Some (fold_left (fun b i =>
    fold_left (fun b j =>
      let idx := 9 * i + j in
      match b i j with
      | Value v _ | AnimatedValue v _ _ _ =>
          if v =? digit_u8 sol idx then
            put b i j (AnimatedValue v (to_choices (bitboard sol idx)) 100 "fade-green")
          else put b i j (Error v (to_choices (bitboard sol idx)))
      | _ => b
      end)
    (seq 0 9) b)
  (seq 0 9) b).

(** [pub fn solve_sudoku(sudoku_data: &mut SudokuData) -> Result<String>]
    with the shuffle of the animated application as parameter [order];
    the [bool] tells whether the result is [Ok]. *)
Definition solve_sudoku (order : list nat) (b : Board) : Board * bool :=
  match solve (sudoku_of_board b) with
  | Some sol => (fst (update_from_sudoku_animated order b sol), true)
  | None =>
      match compare_with_solution b with
      | Some b' => (b', false)
      | None => (b, false)
      end
  end.

(** A sequence of the two mutating operations of the board. *)
Inductive Op :=
| OpSet (row col value : nat) (fixed : bool)
| OpUnset (row col : nat).

Definition apply_op (b : Board) (op : Op) : Board :=
  match op with
  | OpSet row col value fixed => set b row col value fixed
  | OpUnset row col => unset b row col
  end.

Definition run_ops (b : Board) (ops : list Op) : Board := fold_left apply_op ops b.

End External.

(** The preconditions of [set] and [unset]: indices below 9, digit in [1..=9]. *)
Definition valid_op (op : Op) : bool :=
  match op with
  | OpSet row col value _ => (row <? 9) && (col <? 9) && (1 <=? value) && (value <=? 9)
  | OpUnset row col => (row <? 9) && (col <? 9)
  end.

(** [pub fn verify_sudoku] runs [compare_with_solution] and nothing else. *)

(** [impl FromStr for SudokuData]: the cells are read in row-major order,
    one char each. *)
Fixpoint parse_cells (ps : list (nat * nat)) (cs : list rchar) (b : Board)
  : option Board :=
  match ps with
  | [] => Some b
  | (r, c) :: ps' =>
      match cs with
      | [] => None
      | ch :: cs' =>
          if (ch =? 46)%N then parse_cells ps' cs' (put b r c (Empty (all_choices true)))
          else if ((49 <=? ch)%N && (ch <=? 57)%N)%bool then
            parse_cells ps' cs' (put b r c (FixedValue (N.to_nat (ch - 48))))
          else None
      end
  end.

Definition from_str (s : list rchar) : option Board :=
  parse_cells positions s default_board.

(** [write!(f, "{value}")] for a [u8]: its decimal digits. *)
Definition u8_decimal (v : nat) : list rchar :=
  let dg n := N.of_nat (48 + n) in
  if v <? 10 then [dg v]
  else if v <? 100 then [dg (v / 10); dg (v mod 10)]
  else [dg (v / 100); dg ((v / 10) mod 10); dg (v mod 10)].

Definition cell_str (x : Cell) : list rchar :=
  match x with
  | Empty _ => [46%N]
  | Value v _ | AnimatedValue v _ _ _ | FixedValue v | Error v _ => u8_decimal v
  end.

(** [impl Display for SudokuData] *)
Definition to_string (b : Board) : list rchar :=
  flat_map (fun '(r, c) => cell_str (b r c)) positions.

End Board.

(* ------------------------------------------------------------------ *)
(** ** Predicates and auxiliary functions of the board proofs *)

Module BoardSpec.
Import Board.

(** Two cells are peers: distinct, in one row, one column or one box. *)
Definition peerb (r c r' c' : nat) : bool :=
  negb ((r' =? r) && (c' =? c)) &&
  ((r' =? r) || (c' =? c) || ((r' / 3 =? r / 3) && (c' / 3 =? c / 3))).

(** The candidate invariant of the spec's data model. *)
Definition candidates_ok (b : Board) : Prop :=
  forall r c ch d, r < 9 -> c < 9 -> b r c = Empty ch -> 1 <= d <= 9 ->
    (choice_get ch (d - 1) = false <->
     exists r' c', r' < 9 /\ c' < 9 /\ peerb r c r' c' = true /\
                   cell_value (b r' c') = Some d).

(** Every placed digit is in [1..=9]. *)
Definition values_ok (b : Board) : Prop :=
  forall r c v, r < 9 -> c < 9 -> cell_value (b r c) = Some v -> 1 <= v <= 9.

(** The effect of [remove_choice] on one cell. *)
Definition remove1 (x : Cell) (v : nat) : Cell :=
  match x with
  | Empty ch => Empty (choice_set ch (v - 1) false)
  | _ => x
  end.

Definition rc_in (r c : nat) (L : list (nat * nat)) : bool :=
  existsb (fun p => (r =? fst p) && (c =? snd p)) L.

(** All positions touched by the propagation loops of [set]. *)
Definition set_positions (row col : nat) : list (nat * nat) :=
  flat_map (fun i => [(row, i); (i, col)]) (seq 0 9) ++ get_box_positions row col.

Definition same_house (row col r c : nat) : bool :=
  (r =? row) || (c =? col) || ((r / 3 =? row / 3) && (c / 3 =? col / 3)).

(** The cells [impl From<&SudokuData> for Sudoku] places, in order. *)
Definition placements (b : Board) : list (nat * nat) :=
  flat_map (fun i => flat_map (fun j =>
    match cell_value (b i j) with Some v => [(i * 9 + j, v)] | None => [] end)
    (seq 0 9)) (seq 0 9).

(** Cells are peers, as flat indices. *)
Definition peer_idx (i j : nat) : bool := peerb (i / 9) (i mod 9) (j / 9) (j mod 9).

Definition fold_place (place : Sudoku -> nat -> nat -> Sudoku)
    (L : list (nat * nat)) (s : Sudoku) : Sudoku :=
  fold_left (fun s p => place s (fst p) (snd p)) L s.

(** The board [update_from_sudoku] produces, once the cells in [P] are done. *)
Definition partial_update (b : Board) (s : Sudoku) (P : list (nat * nat)) : Board :=
  fun r c => if rc_in r c P && is_empty (b r c)
             then Empty (to_choices (bitboard s (9 * r + c))) else b r c.

(** Boolean form of [candidates_ok], to check concrete boards. *)
Definition candidates_okb (b : Board) : bool :=
  forallb (fun p =>
    match b (fst p) (snd p) with
    | Empty ch =>
        forallb (fun d =>
          Bool.eqb (negb (choice_get ch (d - 1)))
            (existsb (fun q => peerb (fst p) (snd p) (fst q) (snd q) &&
                               match cell_value (b (fst q) (snd q)) with
                               | Some v => v =? d
                               | None => false
                               end) positions))
          (seq 1 9)
    | _ => true
    end) positions.

(** A grid meeting the candidate-bitmask contract: no placement, all nine
    candidates (bits 1 to 9) at first; [place] records the digit and clears
    it from the cells that see the placed one. *)
Definition ref_default : Sudoku := mkSudoku (fun _ => 0) (fun _ => 1022%Z).

Definition ref_place (s : Sudoku) (i v : nat) : Sudoku :=
  mkSudoku (fun k => if k =? i then v else digits s k)
    (fun k => if k =? i then bitboard s k
              else if peer_idx i k then Z.clearbit (bitboard s k) (Z.of_nat v)
              else bitboard s k).

(** What [update_from_sudoku] leaves in a cell that held [x0], for grid
    digit [digit], bitmask [bb] and flag [fixed]. *)
Definition update_cell_spec (x0 : Cell) (digit : nat) (bb : Z) (fixed : bool)
    (res : Cell) : Prop :=
  if digit =? 0 then
    exists ch, res = Empty ch /\
      forall k, choice_get ch k = true -> choice_get (to_choices bb) k = true
  else if is_empty x0 then
    (if fixed then res = FixedValue (digit mod 256)
     else exists ch, res = Value (digit mod 256) ch)
  else res = x0.

(** A cell evolves into another by losing candidates only. *)
Definition cell_le (x y : Cell) : Prop :=
  x = y \/ exists ch ch', x = Empty ch /\ y = Empty ch' /\
    forall k, choice_get ch' k = true -> choice_get ch k = true.

(** Positions of a list are pairwise distinct. *)
Fixpoint nodup_pairs (L : list (nat * nat)) : bool :=
  match L with
  | [] => true
  | p :: L' => negb (rc_in (fst p) (snd p) L') && nodup_pairs L'
  end.

Fixpoint nodup_nat (l : list nat) : bool :=
  match l with
  | [] => true
  | x :: l' => negb (existsb (Nat.eqb x) l') && nodup_nat l'
  end.

(** What [compare_with_solution] makes of a cell, against solution [sol]. *)
Definition recolor (x : Cell) (sol : Sudoku) (idx : nat) : Cell :=
  match x with
  | Value v _ | AnimatedValue v _ _ _ =>
      if v =? digit_u8 sol idx
      then AnimatedValue v (to_choices (bitboard sol idx)) 100 "fade-green"
      else Error v (to_choices (bitboard sol idx))
  | _ => x
  end.

(** The clues of a board only. *)
Definition fixed_part (b : Board) : Board :=
  fun r c => match b r c with
             | FixedValue v => FixedValue v
             | _ => default_cell
             end.

(** The character the spec expects for a cell: ['.'] or the digit. *)
Definition cell_char (x : Cell) : rchar :=
  match cell_value x with
  | None => 46%N
  | Some v => N.of_nat (48 + v)
  end.

(** What [update_from_sudoku_animated] leaves at flat index [idx], visited
    after [k] other positions. *)
Definition animated_cell (x0 : Cell) (sol : Sudoku) (idx k : nat) : Cell :=
  if digits sol idx =? 0 then Empty (to_choices (bitboard sol idx))
  else if is_empty x0
  then AnimatedValue (digit_u8 sol idx) (all_choices false) (5 * Z.of_nat k) "fade-in"
  else x0.

(** Boolean form of [values_ok]. *)
Definition values_okb (b : Board) : bool :=
  forallb (fun p => match cell_value (b (fst p) (snd p)) with
                    | Some v => (1 <=? v) && (v <=? 9)
                    | None => true
                    end) positions.

(** One iteration of the loops of [update_from_sudoku]. *)
Definition update_step (sol : Sudoku) (fixed : bool) (b : Board) (p : nat * nat) : Board :=
  let '(i, j) := p in
  let idx := 9 * i + j in
  if digits sol idx =? 0 then put b i j (Empty (to_choices (bitboard sol idx)))
  else set b i j (digit_u8 sol idx) fixed.

(** One iteration of the loops of [compare_with_solution]. *)
Definition compare_step (sol : Sudoku) (b : Board) (p : nat * nat) : Board :=
  let '(i, j) := p in
  let idx := 9 * i + j in
  match b i j with
  | Value v _ | AnimatedValue v _ _ _ =>
      if v =? digit_u8 sol idx then
        put b i j (AnimatedValue v (to_choices (bitboard sol idx)) 100 "fade-green")
      else put b i j (Error v (to_choices (bitboard sol idx)))
  | _ => b
  end.

(** One iteration of the loop of [update_from_sudoku_animated]. *)
Definition anim_step (sol : Sudoku) (acc : Board * Z) (idx : nat) : Board * Z :=
  let '(b, duration) := acc in
  let i := idx / 9 in
  let j := idx mod 9 in
  let b' := if digits sol idx =? 0
            then put b i j (Empty (to_choices (bitboard sol idx)))
            else set_fade b i j (digit_u8 sol idx) duration in
  (b', (duration + 5)%Z).

(** Concrete inputs. *)

(** A board with a tentative [Value 3] at the top-left corner, and a grid
    putting 5 there and nothing elsewhere. *)
Definition corner_value_board : Board := put default_board 0 0 (Value 3 (all_choices true)).
Definition corner_five_grid : Sudoku :=
  mkSudoku (fun k => if k =? 0 then 5 else 0) (fun _ => 1022%Z).

(** A completed sudoku grid. *)
Definition solved_digit (r c : nat) : nat := (r * 3 + r / 3 + c) mod 9 + 1.

(** All cells are clues of [solved_digit] except the top-left corner, an
    [Error] cell holding the right digit. *)
Definition corner_error_board : Board :=
  fun r c => if (r =? 0) && (c =? 0) then Error (solved_digit 0 0) (all_choices false)
             else FixedValue (solved_digit r c).

(** A solver answering [solved_digit], the only completion of those clues. *)
Definition solved_solver (s : Sudoku) : option Sudoku :=
  Some (mkSudoku (fun k => solved_digit (k / 9) (k mod 9)) (fun _ => 0%Z)).

(** A grid with a blank at index 0 and a 5 at index 1. *)
Definition blank_then_five : Sudoku :=
  mkSudoku (fun k => if k =? 1 then 5 else 0) (fun _ => 1022%Z).

End BoardSpec.

(* ------------------------------------------------------------------ *)
(** ** Further functions of [sudoku_data.rs], [actions.rs] and [util.rs] *)

Module App.
Import Codec Board BoardSpec.

(** [fn to_int(arr: &[bool; 9]) -> u16] (the serialized form of [choices]). *)
Definition to_int (arr : Choices) : Z :=
  fold_left (fun result i =>
    if choice_get arr i then Z.lor result (Z.shiftl 1 (Z.of_nat i)) else result)
    (seq 0 9) 0%Z.

(** [fn from_int(value: u16) -> [bool; 9]] *)
Definition from_int (value : Z) : Choices :=
  fold_left (fun result i =>
    choice_set result i (negb (Z.land value (Z.shiftl 1 (Z.of_nat i)) =? 0)%Z))
    (seq 0 9) (all_choices false).

(** [fn get_only_choice(choices: &[bool; 9]) -> Option<u8>] *)
Definition get_only_choice (choices : Choices) : option nat :=
  let '(count, value) :=
    fold_left (fun '(count, value) i =>
      if choice_get choices i then (count + 1, i + 1) else (count, value))
      (seq 0 9) (0, 0) in
  if count =? 1 then Some value else None.

(** [pub fn to_compressed(&self) -> String] *)
Definition to_compressed (b : Board) : list rchar :=
  match compress_string (to_string b) with
  | Some s => s
  | None => []
  end.

(** [pub fn unwrap_params(params) -> Sudoku]: the [sudoku] query parameter
    ([None] when the parameters fail to parse or it is absent), the
    external [Sudoku::from_str] and [Sudoku::default] as parameters. *)
Section Params.
Variable sudoku_default : Sudoku.
Variable sudoku_from_str : list rchar -> option Sudoku.

Definition unwrap_params (sudoku_param : option (list rchar)) : Sudoku :=
  match (s <-? sudoku_param ;;
         s' <-? decompress_string s ;;
         if is_valid_game_str s' then sudoku_from_str s' else None) with
  | Some sudoku => sudoku
  | None => sudoku_default
  end.
End Params.

(** [pub fn toggle_choice_if_selected(game_state, sudoku, digit: u8)];
    [active_cell] is [game_state.active_cell]. *)
Definition toggle_choice_if_selected (active_cell : option (nat * nat)) (b : Board)
    (digit : nat) : Board :=
  match active_cell with
  | Some (row, col) =>
      match b row col with
      | Empty ch =>
          put b row col
            (Empty (choice_set ch (digit - 1) (negb (choice_get ch (digit - 1)))))
      | _ => b
      end
  | None => b
  end.

Section Actions.
Variable sudoku_default : Sudoku.
Variable place : Sudoku -> nat -> nat -> Sudoku.

(** [fn toggle_if_available(value, digit, choices, sudoku, row, col)] *)
Definition toggle_if_available (value digit : nat) (choices : Choices) (b : Board)
    (row col : nat) : Board :=
  if value =? digit then unset sudoku_default place b row col
  else
    let is_available := choice_get choices (digit - 1) in
    let b1 := unset sudoku_default place b row col in
    if is_available then set b1 row col digit false else b1.

(** [pub fn toggle_digit_if_selected(game_state, sudoku, digit: u8)] *)
Definition toggle_digit_if_selected (active_cell : option (nat * nat)) (b : Board)
    (digit : nat) : Board :=
  match active_cell with
  | Some (row, col) =>
      match b row col with
      | Empty ch => if choice_get ch (digit - 1) then set b row col digit false else b
      | Value v ch | Error v ch | AnimatedValue v ch _ _ =>
          toggle_if_available v digit ch b row col
      | FixedValue _ => b
      end
  | None => b
  end.

(** [pub fn clear_digit_if_selected(game_state, sudoku)] *)
Definition clear_digit_if_selected (active_cell : option (nat * nat)) (b : Board) : Board :=
  match active_cell with
  | Some (row, col) => unset sudoku_default place b row col
  | None => b
  end.
End Actions.

(** [x as i32] for a [usize] [x]: the low 32 bits, read signed. *)
Definition usize_as_i32 (x : nat) : Z :=
  let z := (Z.of_nat x mod 2 ^ 32)%Z in
  if (z <? 2 ^ 31)%Z then z else (z - 2 ^ 32)%Z.

(** [fn is_valid_cell(row: i32, col: i32) -> bool] *)
Definition is_valid_cell (row col : Z) : bool :=
  (0 <=? row)%Z && (row <? 9)%Z && (0 <=? col)%Z && (col <? 9)%Z.

(** The state update of [pub fn handle_arrow(game_state, direction: (i32, i32))]
    on [active_cell]. *)
Definition handle_arrow (active_cell : option (nat * nat)) (direction : Z * Z)
  : option (nat * nat) :=
  match active_cell with
  | Some (row, col) =>
      let new_row := (usize_as_i32 row + fst direction)%Z in
      let new_col := (usize_as_i32 col + snd direction)%Z in
      if is_valid_cell new_row new_col
      then Some (Z.to_nat new_row, Z.to_nat new_col)
      else active_cell
  | None => None
  end.

(** The digit the keypad actions of [src/actions.rs] leave at the selected
    cell [x] for the key [digit]. *)
Definition toggled_value (x : Cell) (digit : nat) : option nat :=
  match x with
  | Empty ch => if choice_get ch (digit - 1) then Some digit else None
  | Value v ch | Error v ch | AnimatedValue v ch _ _ =>
      if v =? digit then None
      else if choice_get ch (digit - 1) then Some digit else None
  | FixedValue v => Some v
  end.

(** The characters [impl FromStr for SudokuData] accepts for a cell:
    ['.'] and ['1'..='9']. *)
Definition from_str_char (ch : rchar) : bool :=
  (ch =? 46)%N || ((49 <=? ch)%N && (ch <=? 57)%N).

(** What [FromStr] makes of the [Display] of a cell: a digit becomes a
    [FixedValue], a blank an [Empty] cell with all candidates. *)
Definition frozen_cell (x : Cell) : Cell :=
  match cell_value x with
  | Some v => FixedValue v
  | None => default_cell
  end.

End App.

(* ------------------------------------------------------------------ *)
(** ** Properties of the codec *)

Module CodecFacts.
Import Codec.

(** Unit tests of [src/util.rs]. *)
Example compress_test1 : compress_string (chars "1....2") = Some (chars "1.d2").
Proof. reflexivity. Qed.
Example compress_test2 : compress_string (chars "111111111") = Some (chars "1i").
Proof. reflexivity. Qed.
Example compress_test3 : compress_string (chars "122222222") = Some (chars "12h").
Proof. reflexivity. Qed.
Example decompress_test1 : decompress_string (chars "1g2b") = Some (chars "111111122").
Proof. reflexivity. Qed.
Example decompress_test2 : decompress_string (chars "d") = None.
Proof. reflexivity. Qed.


Lemma decompress_from_app : forall xs ys d,
  decompress_from d (xs ++ ys) = (d' <-? decompress_from d xs ;; decompress_from d' ys).
Proof.
  induction xs as [|x xs IH]; intros ys d; simpl; [reflexivity|].
  destruct (get_count x) as [idx|].
  - destruct (pop d) as [[r y]|]; simpl; [apply IH|reflexivity].
  - apply IH.
Qed.

Lemma pop_snoc : forall d c, pop (d ++ [c]) = Some (d, c).
Proof.
  intros d c. unfold pop. rewrite rev_app_distr. simpl. rewrite rev_involutive.
  reflexivity.
Qed.

Lemma get_letter_count : forall i, i <= 51 ->
  exists l, get_letter i = Some l /\ get_count l = Some i.
Proof.
  intros i Hi.
  do 52 (destruct i as [|i]; [eexists; split; reflexivity|]).
  lia.
Qed.

Lemma repeat_snoc : forall (c : rchar) n, repeat c (n + 1) = repeat c n ++ [c].
Proof.
  intros c n. rewrite repeat_app. reflexivity.
Qed.

(** Decoding what [push_repeated] appends. *)
Lemma push_repeated_decode : forall acc c count D,
  1 <= count <= 52 -> not_letter c -> decompress_string acc = Some D ->
  exists out, push_repeated acc c count = Some out /\
              decompress_string out = Some (D ++ repeat c count).
Proof.
  intros acc c count D Hc Hl HD. unfold push_repeated, decompress_string in *.
  destruct (1 <? count) eqn:E.
  - apply Nat.ltb_lt in E.
    destruct (get_letter_count (count - 1)) as [l [Hl1 Hl2]]; [lia|].
    rewrite Hl1. simpl. eexists; split; [reflexivity|].
    rewrite decompress_from_app, HD. simpl. unfold not_letter in Hl. rewrite Hl.
    rewrite Hl2. simpl. rewrite pop_snoc. simpl.
    replace (count - 1 + 1) with count by lia. reflexivity.
  - apply Nat.ltb_ge in E. assert (count = 1) by lia. subst.
    eexists; split; [reflexivity|].
    rewrite decompress_from_app, HD. simpl. unfold not_letter in Hl. rewrite Hl.
    reflexivity.
Qed.

(** Main invariant of the compression loop: the emitted prefix decodes to the
    consumed input minus the pending run [repeat last_char count]. *)
Lemma compress_loop_decode : forall rest acc count last D,
  1 <= count <= 52 -> not_letter last -> Forall not_letter rest ->
  decompress_string acc = Some D ->
  exists out, compress_loop rest acc count last = Some out /\
              decompress_string out = Some (D ++ repeat last count ++ rest).
Proof.
  induction rest as [|c rest IH]; intros acc count last D Hc Hl Hr HD.
  - simpl. rewrite app_nil_r. apply push_repeated_decode; assumption.
  - inversion Hr as [|? ? Hcl Hrest]; subst. simpl.
    destruct (N.eqb c last) eqn:E.
    + apply N.eqb_eq in E. subst c.
      unfold push_if_full. destruct (count =? 52) eqn:E52.
      * apply Nat.eqb_eq in E52. subst count. simpl.
        destruct (push_repeated_decode acc last 52 D) as [acc' [Ha' Hd']];
          [lia|assumption|assumption|].
        unfold push_repeated in Ha'. simpl in Ha'. injection Ha' as <-.
        destruct (IH (acc ++ [last; 90%N]) 1 last (D ++ repeat last 52))
          as [out [Ho Hd]]; [lia|assumption|assumption|assumption|].
        exists out. split; [exact Ho|]. rewrite Hd, <- app_assoc. reflexivity.
      * apply Nat.eqb_neq in E52. simpl.
        destruct (IH acc (count + 1) last D) as [out [Ho Hd]];
          [lia|assumption|assumption|assumption|].
        exists out. split; [exact Ho|]. rewrite Hd, repeat_snoc, <- app_assoc.
        reflexivity.
    + destruct (push_repeated_decode acc last count D) as [acc' [Ha' Hd']];
        [lia|assumption|assumption|].
      rewrite Ha'. simpl.
      destruct (IH acc' 1 c (D ++ repeat last count)) as [out [Ho Hd]];
        [lia|assumption|assumption|assumption|].
      exists out. split; [exact Ho|]. rewrite Hd, <- app_assoc. reflexivity.
Qed.

Lemma codec_char_not_letter : forall c, is_codec_char c = true -> not_letter c.
Proof.
  intros c H. unfold is_codec_char in H. unfold not_letter, get_count.
  apply orb_true_iff in H. destruct H as [H|H].
  - apply andb_true_iff in H. destruct H as [H1 H2].
    apply N.leb_le in H1, H2.
    destruct ((97 <=? c)%N) eqn:E1; [apply N.leb_le in E1; lia|].
    destruct ((65 <=? c)%N) eqn:E2; [apply N.leb_le in E2; lia|]. reflexivity.
  - apply N.eqb_eq in H. subst. reflexivity.
Qed.

(** Round trip for any input free of run-length letters. *)
Lemma compress_decompress_no_letters : forall s, Forall not_letter s ->
  (out <-? compress_string s ;; decompress_string out) = Some s.
Proof.
  intros [|c rest] Hs; [reflexivity|].
  inversion Hs as [|? ? Hc Hrest]; subst.
  unfold compress_string. simpl. rewrite N.eqb_refl. simpl.
  destruct (compress_loop_decode rest [] 1 c [] ltac:(lia) Hc Hrest eq_refl)
    as [out [Ho Hd]].
  rewrite Ho. simpl. exact Hd.
Qed.

(** Totality of the compression loop once a run has started. *)
Lemma compress_loop_some : forall rest acc count last,
  1 <= count <= 52 -> compress_loop rest acc count last <> None.
Proof.
  induction rest as [|c rest IH]; intros acc count last Hc; simpl.
  - unfold push_repeated. destruct (1 <? count) eqn:E; [|discriminate].
    apply Nat.ltb_lt in E.
    destruct (get_letter_count (count - 1)) as [l [Hl _]]; [lia|].
    rewrite Hl. discriminate.
  - destruct (N.eqb c last).
    + unfold push_if_full. destruct (count =? 52) eqn:E; simpl.
      * apply Nat.eqb_eq in E. subst count. simpl. apply IH. lia.
      * apply Nat.eqb_neq in E. apply IH. lia.
    + unfold push_repeated. destruct (1 <? count) eqn:E.
      * apply Nat.ltb_lt in E.
        destruct (get_letter_count (count - 1)) as [l [Hl _]]; [lia|].
        rewrite Hl. simpl. apply IH. lia.
      * simpl. apply IH. lia.
Qed.

Lemma compress_string_cons : forall c rest,
  compress_string (c :: rest) = compress_loop rest [] 1 c.
Proof.
  intros c rest. unfold compress_string. cbn [compress_loop].
  rewrite N.eqb_refl. reflexivity.
Qed.

(** Skipping over a run of the current character. *)
Lemma compress_loop_run : forall m tail acc k c, 1 <= k -> k + m <= 52 ->
  compress_loop (repeat c m ++ tail) acc k c = compress_loop tail acc (k + m) c.
Proof.
  induction m as [|m IH]; intros tail acc k c Hk Hm; simpl.
  - rewrite Nat.add_0_r. reflexivity.
  - rewrite N.eqb_refl. unfold push_if_full.
    destruct (k =? 52) eqn:E; [apply Nat.eqb_eq in E; lia|]. simpl.
    rewrite IH by lia. f_equal. lia.
Qed.

Lemma decompress_from_nonempty : forall s d, d <> [] -> decompress_from d s <> None.
Proof.
  induction s as [|c s IH]; intros d Hd; simpl; [discriminate|].
  destruct (get_count c) as [idx|].
  - unfold pop. destruct (rev d) as [|x r] eqn:E.
    + apply (f_equal (@rev rchar)) in E. rewrite rev_involutive in E. contradiction.
    + simpl. apply IH. rewrite Nat.add_1_r. simpl.
      intros H. apply app_eq_nil in H. destruct H; discriminate.
  - apply IH. intros H. apply app_eq_nil in H. destruct H; discriminate.
Qed.

(** Claim C1 (codec round trip): for every string over the alphabet
    ['0'-'9'] and ['.'] (runs of any length included, so every 81-character
    puzzle string), [compress_string] succeeds and [decompress_string] of its
    output gives back the original string. *)
Theorem compress_decompress_roundtrip : forall s,
  forallb is_codec_char s = true ->
  (out <-? compress_string s ;; decompress_string out) = Some s.
Proof.
  intros s Hs. apply compress_decompress_no_letters.
  apply Forall_forall. intros c Hc. apply codec_char_not_letter.
  rewrite forallb_forall in Hs. apply Hs, Hc.
Qed.

Lemma compress_decompress_roundtrip_witness :
  forallb is_codec_char (chars "1....2") = true /\
  (out <-? compress_string (chars "1....2") ;; decompress_string out) = Some (chars "1....2").
Proof.
  split; [reflexivity|].
  apply (compress_decompress_roundtrip (chars "1....2")). reflexivity.
Defined.

(** Claim C8 (totality of compression): [compress_string] returns [Some] on
    every input string, whatever its characters. *)
Theorem compress_string_total : forall s, compress_string s <> None.
Proof.
  intros [|c rest]; [discriminate|].
  unfold compress_string. simpl. rewrite N.eqb_refl. simpl.
  apply compress_loop_some. lia.
Qed.

(** Claim C7 (chunking boundary): a run of exactly 52 copies of a character
    compresses to the character followed by ['Z'] (the letter for 51); a run
    of 53 copies compresses to the character, ['Z'], and the character again. *)
Theorem compress_run_boundary : forall c,
  compress_string (repeat c 52) = Some [c; 90%N] /\
  compress_string (repeat c 53) = Some [c; 90%N; c].
Proof.
  intros c. split.
  - change (repeat c 52) with (c :: repeat c 51). rewrite compress_string_cons.
    rewrite <- (app_nil_r (repeat c 51)), compress_loop_run by lia.
    reflexivity.
  - change (repeat c 53) with (c :: repeat c 51 ++ [c]). rewrite compress_string_cons.
    rewrite compress_loop_run by lia. cbn [compress_loop].
    rewrite N.eqb_refl. reflexivity.
Qed.

(** Claim C6, as stated, fails: two consecutive letters do not make
    [decompress_string] fail; the second letter re-expands the last emitted
    character, so ["1bb"] decodes to ["111"]. *)
Lemma decompress_consecutive_letters :
  decompress_string (chars "1bb") = Some (chars "111").
Proof. reflexivity. Qed.

(** Claim C6 (amended): [decompress_string s] is [None] exactly when the
    first character of [s] is a run-length letter ['a'-'z'] or ['A'-'Z']. *)
Theorem decompress_none_iff_leading_letter : forall s,
  decompress_string s = None <->
  exists c rest, s = c :: rest /\ get_count c <> None.
Proof.
  intros s. split.
  - destruct s as [|c rest]; [discriminate|]. intros H.
    exists c, rest. split; [reflexivity|]. intros Hc.
    unfold decompress_string in H. simpl in H. rewrite Hc in H.
    revert H. apply decompress_from_nonempty. discriminate.
  - intros [c [rest [-> Hc]]]. unfold decompress_string. simpl.
    destruct (get_count c); [reflexivity|]. contradiction.
Qed.

End CodecFacts.

(* ------------------------------------------------------------------ *)
(** ** Properties of the board operations *)

Module BoardFacts.
Import Board BoardSpec.
Lemma choice_get_set : forall ch i j x, i < 9 ->
  choice_get (choice_set ch i x) j = if j =? i then x else choice_get ch j.
Proof.
  intros [] i j x Hi.
  do 9 (destruct i as [|i];
        [destruct j as [|[|[|[|[|[|[|[|[|j]]]]]]]]]; reflexivity|]).
  lia.
Qed.

Lemma choice_set_idem : forall ch i x,
  choice_set (choice_set ch i x) i x = choice_set ch i x.
Proof.
  intros [] i x. do 9 (destruct i as [|i]; [reflexivity|]). reflexivity.
Qed.

Lemma remove1_idem : forall x v, remove1 (remove1 x v) v = remove1 x v.
Proof. intros [] v; simpl; try rewrite choice_set_idem; reflexivity. Qed.

Lemma cell_value_remove1 : forall x v, cell_value (remove1 x v) = cell_value x.
Proof. intros [] v; reflexivity. Qed.

Lemma is_empty_remove1 : forall x v, is_empty (remove1 x v) = is_empty x.
Proof. intros [] v; reflexivity. Qed.

Lemma put_at : forall b r c x r' c',
  put b r c x r' c' = if (r' =? r) && (c' =? c) then x else b r' c'.
Proof. reflexivity. Qed.

Lemma remove_choice_at : forall b r c v r' c',
  remove_choice b r c v r' c' =
  if (r' =? r) && (c' =? c) then remove1 (b r' c') v else b r' c'.
Proof.
  intros b r c v r' c'. unfold remove_choice.
  destruct (r' =? r) eqn:E1, (c' =? c) eqn:E2; simpl;
    try (apply Nat.eqb_eq in E1); try (apply Nat.eqb_eq in E2); subst;
    destruct (b r c) eqn:E; unfold put; rewrite ?Nat.eqb_refl, ?E1, ?E2; simpl;
    rewrite ?E; reflexivity.
Qed.

Lemma fold_remove_at : forall v L b r c,
  fold_left (fun b p => remove_choice b (fst p) (snd p) v) L b r c =
  if rc_in r c L then remove1 (b r c) v else b r c.
Proof.
  intros v. induction L as [|[r0 c0] L IH]; intros b r c; simpl; [reflexivity|].
  rewrite IH, remove_choice_at. simpl.
  destruct ((r =? r0) && (c =? c0)); simpl.
  - destruct (rc_in r c L); [apply remove1_idem|reflexivity].
  - reflexivity.
Qed.

Lemma set_loops_flat : forall b row col v,
  fold_left (fun b '(r, c) => remove_choice b r c v) (get_box_positions row col)
    (fold_left (fun b i => remove_choice (remove_choice b row i v) i col v) (seq 0 9) b)
  = fold_left (fun b p => remove_choice b (fst p) (snd p) v) (set_positions row col) b.
Proof.
  intros b row col v. unfold set_positions. rewrite fold_left_app.
  assert (H1 : forall l b,
    fold_left (fun b i => remove_choice (remove_choice b row i v) i col v) l b =
    fold_left (fun b p => remove_choice b (fst p) (snd p) v)
      (flat_map (fun i => [(row, i); (i, col)]) l) b).
  { induction l as [|i l IH]; intros b'; simpl; [reflexivity|]. apply IH. }
  rewrite H1.
  generalize (fold_left (fun b p => remove_choice b (fst p) (snd p) v)
      (flat_map (fun i => [(row, i); (i, col)]) (seq 0 9)) b) as b0.
  induction (get_box_positions row col) as [|[r c] l IH]; intros b0; simpl;
    [reflexivity|]. apply IH.
Qed.

Lemma set_positions_house_all :
  forallb (fun row => forallb (fun col => forallb (fun r => forallb (fun c =>
    Bool.eqb (rc_in r c (set_positions row col)) (same_house row col r c))
    (seq 0 9)) (seq 0 9)) (seq 0 9)) (seq 0 9) = true.
Proof. vm_compute. reflexivity. Qed.

Lemma set_positions_house : forall row col r c, row < 9 -> col < 9 -> r < 9 -> c < 9 ->
  rc_in r c (set_positions row col) = same_house row col r c.
Proof.
  intros row col r c H1 H2 H3 H4.
  pose proof set_positions_house_all as H.
  rewrite forallb_forall in H. specialize (H row ltac:(apply in_seq; lia)).
  rewrite forallb_forall in H. specialize (H col ltac:(apply in_seq; lia)).
  rewrite forallb_forall in H. specialize (H r ltac:(apply in_seq; lia)).
  rewrite forallb_forall in H. specialize (H c ltac:(apply in_seq; lia)).
  apply Bool.eqb_prop. exact H.
Qed.

Lemma set_at : forall b row col v f chx r c,
  b row col = Empty chx -> row < 9 -> col < 9 -> r < 9 -> c < 9 ->
  set b row col v f r c =
  if (r =? row) && (c =? col) then (if f then FixedValue v else Value v chx)
  else if same_house row col r c then remove1 (b r c) v else b r c.
Proof.
  intros b row col v f chx r c E0 H1 H2 H3 H4. unfold set. rewrite E0. cbv zeta.
  rewrite set_loops_flat, fold_remove_at, set_positions_house by assumption.
  rewrite put_at. destruct ((r =? row) && (c =? col)) eqn:E.
  - apply andb_true_iff in E. destruct E as [Ea Eb].
    apply Nat.eqb_eq in Ea, Eb. subst. unfold same_house. rewrite Nat.eqb_refl.
    destruct f; reflexivity.
  - destruct (same_house row col r c); reflexivity.
Qed.

Lemma set_not_empty : forall b row col v f,
  is_empty (b row col) = false -> set b row col v f = b.
Proof. intros b row col v f H. unfold set. destruct (b row col); easy. Qed.

Lemma set_value_at : forall b row col v f chx r c,
  b row col = Empty chx -> row < 9 -> col < 9 -> r < 9 -> c < 9 ->
  cell_value (set b row col v f r c) =
  if (r =? row) && (c =? col) then Some v else cell_value (b r c).
Proof.
  intros. rewrite (set_at b row col v f chx r c) by assumption.
  destruct ((r =? row) && (c =? col)); [destruct f; reflexivity|].
  destruct (same_house row col r c); [apply cell_value_remove1|reflexivity].
Qed.

Lemma peer_house : forall r c row col,
  peerb r c row col = negb ((r =? row) && (c =? col)) && same_house row col r c.
Proof.
  intros. unfold peerb, same_house.
  rewrite (Nat.eqb_sym row r), (Nat.eqb_sym col c),
    (Nat.eqb_sym (row / 3) (r / 3)), (Nat.eqb_sym (col / 3) (c / 3)).
  reflexivity.
Qed.

Lemma eqb_pair_true : forall r c row col,
  (r =? row) && (c =? col) = true -> r = row /\ c = col.
Proof.
  intros r c row col H. apply andb_true_iff in H. destruct H as [H1 H2].
  apply Nat.eqb_eq in H1, H2. auto.
Qed.

Lemma set_values_ok : forall b row col v f,
  values_ok b -> row < 9 -> col < 9 -> 1 <= v <= 9 -> values_ok (set b row col v f).
Proof.
  intros b row col v f Hok H1 H2 Hv r c w Hr Hc Hw.
  destruct (is_empty (b row col)) eqn:Ee.
  - destruct (b row col) as [chx| | | |] eqn:E0; try discriminate.
    rewrite (set_value_at b row col v f chx) in Hw by assumption.
    destruct ((r =? row) && (c =? col)); [injection Hw as <-; exact Hv|].
    exact (Hok r c w Hr Hc Hw).
  - rewrite set_not_empty in Hw by assumption. exact (Hok r c w Hr Hc Hw).
Qed.

(** Peers seen from an unchanged cell, for a digit other than the one placed
    or a cell that does not see the placed one. *)
Lemma peers_after_set : forall b row col v f chx r c d,
  b row col = Empty chx -> row < 9 -> col < 9 -> r < 9 -> c < 9 ->
  d <> v \/ peerb r c row col = false ->
  (exists r' c', r' < 9 /\ c' < 9 /\ peerb r c r' c' = true /\
                 cell_value (set b row col v f r' c') = Some d) <->
  (exists r' c', r' < 9 /\ c' < 9 /\ peerb r c r' c' = true /\
                 cell_value (b r' c') = Some d).
Proof.
  intros b row col v f chx r c d E0 H1 H2 H3 H4 Hd.
  split; intros [r' [c' [Hr' [Hc' [Hp Hv]]]]]; exists r', c';
    (repeat split; [assumption|assumption|assumption|]);
    rewrite (set_value_at b row col v f chx) in * by assumption;
    destruct ((r' =? row) && (c' =? col)) eqn:Ex; try assumption.
  - apply eqb_pair_true in Ex. destruct Ex; subst.
    injection Hv as <-. destruct Hd as [Hd|Hd]; [contradiction|congruence].
  - apply eqb_pair_true in Ex. destruct Ex; subst. rewrite E0 in Hv. discriminate.
Qed.

Lemma set_candidates_ok : forall b row col v f,
  candidates_ok b -> row < 9 -> col < 9 -> 1 <= v <= 9 ->
  candidates_ok (set b row col v f).
Proof.
  intros b row col v f Hinv H1 H2 Hv.
  destruct (b row col) as [chx| | | |] eqn:E0;
    try (rewrite set_not_empty by (rewrite E0; reflexivity); exact Hinv).
  intros r c ch d Hr Hc Hb Hd.
  rewrite (set_at b row col v f chx) in Hb by assumption.
  destruct ((r =? row) && (c =? col)) eqn:Erc; [destruct f; discriminate|].
  destruct (same_house row col r c) eqn:Hh.
  - destruct (b r c) as [chy| | | |] eqn:E1; simpl in Hb; try discriminate.
    injection Hb as <-.
    rewrite choice_get_set by lia.
    destruct (Nat.eq_dec d v) as [->|Hdv].
    + rewrite Nat.eqb_refl. split; [intros _|reflexivity].
      exists row, col. repeat split; try assumption.
      * rewrite peer_house, Erc, Hh. reflexivity.
      * rewrite (set_value_at b row col v f chx) by assumption.
        rewrite !Nat.eqb_refl. reflexivity.
    + replace (d - 1 =? v - 1) with false by (symmetry; apply Nat.eqb_neq; lia).
      rewrite (peers_after_set b row col v f chx) by (auto; lia).
      apply (Hinv r c chy d); assumption.
  - rewrite (peers_after_set b row col v f chx)
      by (try assumption; right; rewrite peer_house, Hh, andb_false_r; reflexivity).
    apply (Hinv r c ch d); assumption.
Qed.

Lemma fold_left_ext_fun : forall {A B : Type} (f g : A -> B -> A) l a,
  (forall a x, f a x = g a x) -> fold_left f l a = fold_left g l a.
Proof.
  intros A B f g l. induction l as [|x l IH]; intros a H; simpl; [reflexivity|].
  rewrite H. apply IH, H.
Qed.

Lemma fold_left_flat_map : forall {A B C : Type} (f : A -> C -> A) (g : B -> list C) l a,
  fold_left f (flat_map g l) a = fold_left (fun a x => fold_left f (g x) a) l a.
Proof.
  intros A B C f g l. induction l as [|x l IH]; intros a; simpl; [reflexivity|].
  rewrite fold_left_app. apply IH.
Qed.

Lemma peerb_sym : forall r c r' c', peerb r c r' c' = peerb r' c' r c.
Proof.
  intros. unfold peerb.
  rewrite (Nat.eqb_sym r' r), (Nat.eqb_sym c' c),
    (Nat.eqb_sym (r' / 3) (r / 3)), (Nat.eqb_sym (c' / 3) (c / 3)).
  reflexivity.
Qed.

Lemma idx_div_mod : forall i j, j < 9 -> (i * 9 + j) / 9 = i /\ (i * 9 + j) mod 9 = j.
Proof.
  intros i j Hj. split.
  - rewrite Nat.div_add_l by lia. rewrite Nat.div_small by lia. lia.
  - rewrite Nat.add_comm, Nat.Div0.mod_add. apply Nat.mod_small. lia.
Qed.

Lemma idx_inj : forall i j i' j', j < 9 -> j' < 9 -> i * 9 + j = i' * 9 + j' ->
  i = i' /\ j = j'.
Proof.
  intros i j i' j' Hj Hj' E.
  destruct (idx_div_mod i j Hj) as [A B]. destruct (idx_div_mod i' j' Hj') as [C D].
  rewrite E in A, B. split; congruence.
Qed.

Lemma to_choices_get : forall bb d, 1 <= d <= 9 ->
  choice_get (to_choices bb) (d - 1) = Z.testbit bb (Z.of_nat d).
Proof.
  intros bb d Hd. do 10 (destruct d as [|d]; [try lia; reflexivity|]). lia.
Qed.

Lemma in_placements : forall b k v,
  In (k, v) (placements b) <->
  exists i j, i < 9 /\ j < 9 /\ k = i * 9 + j /\ cell_value (b i j) = Some v.
Proof.
  intros b k v. unfold placements. rewrite in_flat_map. split.
  - intros [i [Hi H]]. rewrite in_flat_map in H. destruct H as [j [Hj H]].
    apply in_seq in Hi, Hj.
    destruct (cell_value (b i j)) as [w|] eqn:E; [|contradiction].
    destruct H as [H|[]]. injection H as <- <-. exists i, j. repeat split; auto; lia.
  - intros [i [j [Hi [Hj [-> E]]]]]. exists i. split; [apply in_seq; lia|].
    rewrite in_flat_map. exists j. split; [apply in_seq; lia|].
    rewrite E. left. reflexivity.
Qed.

(** The external grid's contract the board code relies on: [digits] records
    placements, and [bitboard] is the candidate mask of the spec (bit [d] set
    for digit [d]), a placement clearing its digit in the cells that see it. *)
Section Contract.
Variable sudoku_default : Sudoku.
Variable place : Sudoku -> nat -> nat -> Sudoku.
Hypothesis default_digits : forall k, digits sudoku_default k = 0.
Hypothesis default_bits : forall k d, 1 <= d <= 9 ->
  Z.testbit (bitboard sudoku_default k) (Z.of_nat d) = true.
Hypothesis place_digits : forall s i v k,
  digits (place s i v) k = if k =? i then v else digits s k.
Hypothesis place_bits : forall s i v k d, k <> i -> 1 <= d <= 9 ->
  Z.testbit (bitboard (place s i v) k) (Z.of_nat d) =
  Z.testbit (bitboard s k) (Z.of_nat d) && negb (peer_idx i k && (d =? v)).

Lemma sudoku_of_board_placements : forall b,
  sudoku_of_board sudoku_default place b = fold_place place (placements b) sudoku_default.
Proof.
  intros b. unfold sudoku_of_board, fold_place, placements.
  rewrite fold_left_flat_map. apply fold_left_ext_fun. intros s i.
  rewrite fold_left_flat_map. apply fold_left_ext_fun. intros s' j.
  destruct (b i j); reflexivity.
Qed.

Lemma fold_place_digits_out : forall L s k, (forall p, In p L -> fst p <> k) ->
  digits (fold_place place L s) k = digits s k.
Proof.
  unfold fold_place. induction L as [|p L IH]; intros s k H; simpl; [reflexivity|].
  rewrite IH by (intros q Hq; apply H; right; exact Hq). rewrite place_digits.
  destruct (k =? fst p) eqn:E; [|reflexivity].
  apply Nat.eqb_eq in E. exfalso. apply (H p); [left; reflexivity|symmetry; exact E].
Qed.

Lemma fold_place_digits_nonzero : forall L s k, (forall p, In p L -> snd p <> 0) ->
  (digits s k <> 0 \/ exists v, In (k, v) L) -> digits (fold_place place L s) k <> 0.
Proof.
  unfold fold_place. induction L as [|p L IH]; intros s k H Hk; simpl.
  - destruct Hk as [Hk|[v []]]. exact Hk.
  - apply IH; [intros q Hq; apply H; right; exact Hq|]. rewrite place_digits.
    destruct Hk as [Hk|[v [Hv|Hv]]].
    + left. destruct (k =? fst p); [apply H; left; reflexivity|exact Hk].
    + left. subst p. simpl. rewrite Nat.eqb_refl. apply (H (k, v)).
      left; reflexivity.
    + right. exists v. exact Hv.
Qed.

Lemma fold_place_bits : forall L s k d, 1 <= d <= 9 ->
  (forall p, In p L -> fst p <> k) ->
  Z.testbit (bitboard (fold_place place L s) k) (Z.of_nat d) =
  Z.testbit (bitboard s k) (Z.of_nat d) &&
  forallb (fun p => negb (peer_idx (fst p) k && (d =? snd p))) L.
Proof.
  unfold fold_place. induction L as [|p L IH]; intros s k d Hd H; simpl.
  - rewrite andb_true_r. reflexivity.
  - rewrite IH by (try assumption; intros q Hq; apply H; right; exact Hq).
    rewrite place_bits
      by first [assumption|intros E; apply (H p); [left; reflexivity|symmetry; exact E]].
    rewrite andb_assoc. reflexivity.
Qed.

Lemma peer_idx_rc : forall i j r c, j < 9 -> c < 9 ->
  peer_idx (i * 9 + j) (9 * r + c) = peerb i j r c.
Proof.
  intros i j r c Hj Hc. unfold peer_idx. rewrite (Nat.mul_comm 9 r).
  destruct (idx_div_mod i j Hj) as [-> ->]. destruct (idx_div_mod r c Hc) as [-> ->].
  reflexivity.
Qed.

Lemma forallb_false_exists : forall {A : Type} (f : A -> bool) l,
  forallb f l = false -> exists x, In x l /\ f x = false.
Proof.
  intros A f l. induction l as [|x l IH]; simpl; [discriminate|].
  destruct (f x) eqn:E; simpl.
  - intros H. destruct (IH H) as [y [Hy Hf]]. exists y. auto.
  - intros _. exists x. auto.
Qed.

Lemma placements_not_at : forall b r c, c < 9 -> is_empty (b r c) = true ->
  forall p, In p (placements b) -> fst p <> 9 * r + c.
Proof.
  intros b r c Hc He [k v] Hin E. cbn [fst] in E.
  apply in_placements in Hin. destruct Hin as [i [j [Hi [Hj [-> Hv]]]]].
  rewrite (Nat.mul_comm 9 r) in E. apply idx_inj in E; [|lia|lia].
  destruct E as [-> ->]. destruct (b r c); discriminate.
Qed.

Lemma board_digits_zero : forall b r c, c < 9 -> is_empty (b r c) = true ->
  digits (sudoku_of_board sudoku_default place b) (9 * r + c) = 0.
Proof.
  intros b r c Hc He. rewrite sudoku_of_board_placements, fold_place_digits_out.
  - apply default_digits.
  - apply placements_not_at; assumption.
Qed.

Lemma board_digits_nonzero : forall b r c, values_ok b -> r < 9 -> c < 9 ->
  is_empty (b r c) = false ->
  digits (sudoku_of_board sudoku_default place b) (9 * r + c) <> 0.
Proof.
  intros b r c Hok Hr Hc He. rewrite sudoku_of_board_placements.
  apply fold_place_digits_nonzero.
  - intros [k v] Hin. simpl. apply in_placements in Hin.
    destruct Hin as [i [j [Hi [Hj [_ Hv]]]]]. specialize (Hok i j v Hi Hj Hv). lia.
  - right. destruct (cell_value (b r c)) as [v|] eqn:E.
    + exists v. apply in_placements. exists r, c. repeat split; auto. lia.
    + destruct (b r c); discriminate.
Qed.

Lemma board_bits : forall b r c d, c < 9 -> is_empty (b r c) = true -> 1 <= d <= 9 ->
  (Z.testbit (bitboard (sudoku_of_board sudoku_default place b) (9 * r + c)) (Z.of_nat d)
     = false <->
   exists r' c', r' < 9 /\ c' < 9 /\ peerb r c r' c' = true /\
                 cell_value (b r' c') = Some d).
Proof.
  intros b r c d Hc He Hd. rewrite sudoku_of_board_placements.
  rewrite fold_place_bits by (try assumption; apply placements_not_at; assumption).
  rewrite default_bits by assumption. rewrite andb_true_l.
  destruct (forallb _ _) eqn:F.
  - split; [discriminate|]. intros [r' [c' [Hr' [Hc' [Hp Hv]]]]].
    rewrite forallb_forall in F.
    assert (Hin : In (r' * 9 + c', d) (placements b))
      by (apply in_placements; exists r', c'; auto).
    specialize (F _ Hin). cbn [fst snd] in F.
    rewrite peer_idx_rc, Nat.eqb_refl in F by assumption.
    rewrite peerb_sym, Hp in F. discriminate.
  - split; [intros _|reflexivity].
    apply forallb_false_exists in F. destruct F as [[k v] [Hin F]].
    apply negb_false_iff, andb_true_iff in F. destruct F as [Fp Fd]. cbn [fst snd] in *.
    apply Nat.eqb_eq in Fd. subst v.
    apply in_placements in Hin. destruct Hin as [i [j [Hi [Hj [-> Hv]]]]].
    rewrite peer_idx_rc in Fp by assumption.
    exists i, j. rewrite peerb_sym. auto.
Qed.


Lemma rc_in_In : forall r c L, rc_in r c L = true <-> In (r, c) L.
Proof.
  intros r c L. unfold rc_in. rewrite existsb_exists. split.
  - intros [[r' c'] [Hin H]]. apply eqb_pair_true in H. simpl in H.
    destruct H; subst. exact Hin.
  - intros Hin. exists (r, c). simpl. rewrite !Nat.eqb_refl. auto.
Qed.

Lemma in_positions : forall r c, In (r, c) positions <-> r < 9 /\ c < 9.
Proof.
  intros r c. unfold positions. rewrite in_flat_map. split.
  - intros [i [Hi H]]. apply in_map_iff in H. destruct H as [j [E Hj]].
    injection E as <- <-. apply in_seq in Hi, Hj. lia.
  - intros [Hr Hc]. exists r. split; [apply in_seq; lia|].
    apply in_map_iff. exists c. split; [reflexivity|apply in_seq; lia].
Qed.

Lemma rc_in_snoc : forall r c P i j,
  rc_in r c (P ++ [(i, j)]) = rc_in r c P || ((r =? i) && (c =? j)).
Proof.
  intros. unfold rc_in. rewrite existsb_app. simpl. rewrite orb_false_r. reflexivity.
Qed.

(** [update_from_sudoku] where the grid's zero digits are exactly the empty
    cells: empty cells take the bitmask's candidates, the others are kept. *)
Lemma update_from_sudoku_matching : forall b s f,
  (forall r c, r < 9 -> c < 9 -> (digits s (9 * r + c) =? 0) = is_empty (b r c)) ->
  forall r c, r < 9 -> c < 9 ->
  update_from_sudoku b s f r c =
  if is_empty (b r c) then Empty (to_choices (bitboard s (9 * r + c))) else b r c.
Proof.
  intros b s f Hm.
  set (step := fun b' (p : nat * nat) =>
         let '(i, j) := p in
         if digits s (9 * i + j) =? 0
         then put b' i j (Empty (to_choices (bitboard s (9 * i + j))))
         else set b' i j (digit_u8 s (9 * i + j)) f).
  assert (Hflat : update_from_sudoku b s f = fold_left step positions b).
  { unfold update_from_sudoku, positions. rewrite fold_left_flat_map.
    apply fold_left_ext_fun. intros b' i. revert b'.
    generalize (seq 0 9) as l. induction l as [|j l IH]; intros b''; simpl;
      [reflexivity|]. apply IH. }
  assert (Hstep : forall L P, (forall i j, In (i, j) L -> i < 9 /\ j < 9) ->
            fold_left step L (partial_update b s P) = partial_update b s (P ++ L)).
  { induction L as [|[i j] L IH]; intros P HL; cbn [fold_left];
      [rewrite app_nil_r; reflexivity|].
    destruct (HL i j (or_introl eq_refl)) as [Hi Hj].
    replace (P ++ (i, j) :: L) with ((P ++ [(i, j)]) ++ L) by (rewrite <- app_assoc; reflexivity).
    rewrite <- IH by (intros; apply HL; right; assumption). f_equal.
    unfold step. cbv beta iota. rewrite (Hm i j Hi Hj).
    destruct (is_empty (b i j)) eqn:Ee.
    - apply functional_extensionality. intros r. apply functional_extensionality. intros c.
      rewrite put_at. unfold partial_update. rewrite rc_in_snoc.
      destruct ((r =? i) && (c =? j)) eqn:E.
      + apply eqb_pair_true in E. destruct E; subst. rewrite Ee, orb_true_r. reflexivity.
      + rewrite orb_false_r. reflexivity.
    - rewrite set_not_empty
        by (unfold partial_update; rewrite Ee, andb_false_r; exact Ee).
      apply functional_extensionality. intros r. apply functional_extensionality. intros c.
      unfold partial_update. rewrite rc_in_snoc.
      destruct ((r =? i) && (c =? j)) eqn:E.
      + apply eqb_pair_true in E. destruct E; subst. rewrite Ee, !andb_false_r.
        reflexivity.
      + rewrite orb_false_r. reflexivity. }
  intros r c Hr Hc. rewrite Hflat.
  replace b with (partial_update b s []) at 1
    by (apply functional_extensionality; reflexivity).
  rewrite Hstep by (intros i j H; apply in_positions; exact H).
  unfold partial_update. rewrite app_nil_l.
  replace (rc_in r c positions) with true
    by (symmetry; apply rc_in_In, in_positions; auto).
  reflexivity.
Qed.

Lemma cell_value_refresh : forall x y,
  cell_value (if is_empty x then Empty y else x) = cell_value x.
Proof. intros [] y; reflexivity. Qed.

(** The recomputation [unset] performs restores the invariant from scratch. *)
Lemma refresh_ok : forall b1, values_ok b1 ->
  let b2 := update_from_sudoku b1 (sudoku_of_board sudoku_default place b1) false in
  candidates_ok b2 /\ values_ok b2.
Proof.
  intros b1 Hok b2.
  assert (Hm : forall r c, r < 9 -> c < 9 ->
    (digits (sudoku_of_board sudoku_default place b1) (9 * r + c) =? 0)
    = is_empty (b1 r c)).
  { intros r c Hr Hc. destruct (is_empty (b1 r c)) eqn:Ee.
    - rewrite board_digits_zero by assumption. reflexivity.
    - apply Nat.eqb_neq. apply board_digits_nonzero; assumption. }
  assert (Hv : forall r c, r < 9 -> c < 9 -> cell_value (b2 r c) = cell_value (b1 r c)).
  { intros r c Hr Hc. unfold b2.
    rewrite update_from_sudoku_matching by assumption. apply cell_value_refresh. }
  split.
  - intros r c ch d Hr Hc Hb Hd. unfold b2 in Hb.
    rewrite update_from_sudoku_matching in Hb by assumption.
    destruct (is_empty (b1 r c)) eqn:Ee.
    + assert (Ech : ch = to_choices
        (bitboard (sudoku_of_board sudoku_default place b1) (9 * r + c))) by congruence.
      subst ch. rewrite to_choices_get by assumption.
      rewrite board_bits by assumption.
      split; intros [r' [c' [H1 [H2 [H3 H4]]]]]; exists r', c';
        repeat split; try assumption; [rewrite Hv|rewrite <- Hv]; assumption.
    + rewrite Hb in Ee. discriminate.
  - intros r c w Hr Hc Hw. rewrite Hv in Hw by assumption. exact (Hok r c w Hr Hc Hw).
Qed.

Lemma unset_ok : forall b row col,
  candidates_ok b -> values_ok b -> row < 9 -> col < 9 ->
  candidates_ok (unset sudoku_default place b row col) /\
  values_ok (unset sudoku_default place b row col).
Proof.
  intros b row col Hinv Hok Hr Hc.
  assert (Hput : forall ch, values_ok (put b row col (Empty ch))).
  { intros ch r c w H1 H2 Hw. rewrite put_at in Hw.
    destruct ((r =? row) && (c =? col)); [discriminate|exact (Hok r c w H1 H2 Hw)]. }
  unfold unset. destruct (b row col); try (split; assumption); apply refresh_ok, Hput.
Qed.

Lemma run_ops_ok : forall ops b,
  candidates_ok b -> values_ok b -> forallb valid_op ops = true ->
  candidates_ok (run_ops sudoku_default place b ops) /\
  values_ok (run_ops sudoku_default place b ops).
Proof.
  unfold run_ops.
  induction ops as [|op ops IH]; intros b Hinv Hok Hops; cbn [fold_left forallb] in *;
    [auto|].
  apply andb_true_iff in Hops. destruct Hops as [Hop Hops].
  destruct op as [row col value fixed|row col]; unfold valid_op in Hop.
  - apply andb_true_iff in Hop. destruct Hop as [Hop H4].
    apply andb_true_iff in Hop. destruct Hop as [Hop H3].
    apply andb_true_iff in Hop. destruct Hop as [H1 H2].
    apply Nat.ltb_lt in H1, H2. apply Nat.leb_le in H3, H4.
    apply IH; [apply set_candidates_ok|apply set_values_ok|]; auto.
  - apply andb_true_iff in Hop. destruct Hop as [H1 H2].
    apply Nat.ltb_lt in H1, H2.
    destruct (unset_ok b row col Hinv Hok H1 H2). apply IH; auto.
Qed.

(** Claim C2 (candidate invariant): starting from a board satisfying the
    candidate invariant whose placed digits are in [1..=9], after any sequence
    of [set]/[unset] calls with in-range arguments, every [Empty] cell has
    [choices[d-1]] false exactly when a peer (same row, column or box) holds
    [d] as [Value], [FixedValue], [AnimatedValue] or [Error].  The external
    grid is any one meeting the candidate-bitmask contract of this section. *)
Theorem set_unset_preserve_candidates : forall ops b,
  candidates_ok b -> values_ok b -> forallb valid_op ops = true ->
  candidates_ok (run_ops sudoku_default place b ops).
Proof. intros ops b H1 H2 H3. apply (run_ops_ok ops b H1 H2 H3). Qed.

End Contract.

End BoardFacts.

(* ------------------------------------------------------------------ *)
(** ** Checkers for concrete boards, and a grid meeting the contract *)

Module Checkers.
Import Board BoardSpec BoardFacts.

Lemma values_okb_sound : forall b, values_okb b = true -> values_ok b.
Proof.
  intros b H r c v Hr Hc Hv. unfold values_okb in H. rewrite forallb_forall in H.
  specialize (H (r, c) (proj2 (in_positions r c) (conj Hr Hc))).
  cbn [fst snd] in H. rewrite Hv in H. apply andb_true_iff in H.
  destruct H as [H1 H2]. apply Nat.leb_le in H1, H2. lia.
Qed.

Lemma candidates_okb_sound : forall b, candidates_okb b = true -> candidates_ok b.
Proof.
  intros b H r c ch d Hr Hc Hb Hd. unfold candidates_okb in H.
  rewrite forallb_forall in H.
  specialize (H (r, c) (proj2 (in_positions r c) (conj Hr Hc))).
  cbn [fst snd] in H. rewrite Hb, forallb_forall in H.
  specialize (H d (proj2 (in_seq 9 1 d) ltac:(lia))).
  apply Bool.eqb_prop in H. split.
  - intros Hf. rewrite Hf in H. symmetry in H. cbn [negb] in H.
    apply existsb_exists in H. destruct H as [[r' c'] [Hin Hq]].
    apply in_positions in Hin. destruct Hin as [Hr' Hc']. cbn [fst snd] in Hq.
    apply andb_true_iff in Hq. destruct Hq as [Hp Hv].
    exists r', c'. repeat split; try assumption.
    destruct (cell_value (b r' c')) as [v|]; [|discriminate].
    apply Nat.eqb_eq in Hv. subst. reflexivity.
  - intros [r' [c' [Hr' [Hc' [Hp Hv]]]]].
    assert (He : existsb (fun q => peerb r c (fst q) (snd q) &&
                   match cell_value (b (fst q) (snd q)) with
                   | Some v => v =? d
                   | None => false
                   end) positions = true).
    { apply existsb_exists. exists (r', c').
      split; [apply in_positions; auto|]. cbn [fst snd]. rewrite Hp, Hv, Nat.eqb_refl.
      reflexivity. }
    rewrite He in H. destruct (choice_get ch (d - 1)); [discriminate|reflexivity].
Qed.

Lemma ref_default_digits : forall k, digits ref_default k = 0.
Proof. reflexivity. Qed.

Lemma ref_default_bits : forall k d, 1 <= d <= 9 ->
  Z.testbit (bitboard ref_default k) (Z.of_nat d) = true.
Proof.
  intros k d Hd. do 10 (destruct d as [|d]; [try lia; reflexivity|]). lia.
Qed.

Lemma ref_place_digits : forall s i v k,
  digits (ref_place s i v) k = if k =? i then v else digits s k.
Proof. reflexivity. Qed.

Lemma ref_place_bits : forall s i v k d, k <> i -> 1 <= d <= 9 ->
  Z.testbit (bitboard (ref_place s i v) k) (Z.of_nat d) =
  Z.testbit (bitboard s k) (Z.of_nat d) && negb (peer_idx i k && (d =? v)).
Proof.
  intros s i v k d Hki Hd. cbn [bitboard ref_place].
  replace (k =? i) with false by (symmetry; apply Nat.eqb_neq; exact Hki).
  destruct (peer_idx i k); cbn [andb].
  - rewrite Z.clearbit_eqb. f_equal. f_equal.
    destruct (Nat.eqb_spec d v) as [->|Hne]; [apply Z.eqb_refl|].
    apply Z.eqb_neq. lia.
  - rewrite andb_true_r. reflexivity.
Qed.

(** Setting 5 at the top-left corner of the empty board removes candidate 5
    from the row, column and box, and unsetting it restores it. *)
Example set_unset_example :
  let b1 := run_ops ref_default ref_place default_board [OpSet 0 0 5 false] in
  let b2 := run_ops ref_default ref_place default_board [OpSet 0 0 5 false; OpUnset 0 0] in
  (exists ch, b1 0 4 = Empty ch /\ choice_get ch 4 = false) /\
  (exists ch, b1 4 0 = Empty ch /\ choice_get ch 4 = false) /\
  (exists ch, b1 2 2 = Empty ch /\ choice_get ch 4 = false) /\
  (exists ch, b1 4 4 = Empty ch /\ choice_get ch 4 = true) /\
  b2 0 0 = Empty (all_choices true) /\ b2 0 4 = Empty (all_choices true).
Proof.
  cbv zeta. repeat split; try (eexists; split); vm_compute; reflexivity.
Qed.

Lemma set_unset_preserve_candidates_witness :
  candidates_ok default_board /\ values_ok default_board /\
  candidates_ok (run_ops ref_default ref_place default_board
                   [OpSet 0 0 5 false; OpSet 4 7 5 true; OpUnset 0 0]).
Proof.
  assert (H1 : candidates_ok default_board)
    by (apply candidates_okb_sound; vm_compute; reflexivity).
  assert (H2 : values_ok default_board)
    by (apply values_okb_sound; vm_compute; reflexivity).
  split; [exact H1|split; [exact H2|]].
  exact (set_unset_preserve_candidates ref_default ref_place ref_default_digits
           ref_default_bits ref_place_digits ref_place_bits
           [OpSet 0 0 5 false; OpSet 4 7 5 true; OpUnset 0 0] default_board H1 H2 eq_refl).
Defined.

End Checkers.

(* ------------------------------------------------------------------ *)
(** ** Applying a solver grid to the board *)

Module UpdateFacts.
Import Board BoardSpec BoardFacts.

Lemma choice_get_clear : forall ch i k,
  choice_get (choice_set ch i false) k = true -> choice_get ch k = true.
Proof.
  intros [] i k.
  destruct i as [|[|[|[|[|[|[|[|[|i]]]]]]]]];
    destruct k as [|[|[|[|[|[|[|[|[|k]]]]]]]]]; cbn; intros H;
    first [exact H | discriminate H].
Qed.

Lemma cell_le_refl : forall x, cell_le x x.
Proof. intros x. left. reflexivity. Qed.

Lemma cell_le_trans : forall x y z, cell_le x y -> cell_le y z -> cell_le x z.
Proof.
  intros x y z [<-|[ch1 [ch2 [-> [-> H12]]]]] Hyz; [exact Hyz|].
  destruct Hyz as [<-|[ch3 [ch4 [E [-> H34]]]]].
  - right. exists ch1, ch2. auto.
  - right. exists ch1, ch4. repeat split. assert (ch3 = ch2) by congruence. subst.
    intros k Hk. apply H12, H34, Hk.
Qed.

Lemma cell_le_remove1 : forall x v, cell_le x (remove1 x v).
Proof.
  intros [ch| | | |] v; try apply cell_le_refl.
  right. exists ch, (choice_set ch (v - 1) false). repeat split.
  intros k. apply choice_get_clear.
Qed.

Lemma cell_le_nonempty : forall x y, is_empty x = false -> cell_le x y -> y = x.
Proof.
  intros x y Hx [<-|[ch [ch' [-> _]]]]; [reflexivity|discriminate].
Qed.

Lemma cell_le_is_empty : forall x y, cell_le x y -> is_empty y = is_empty x.
Proof. intros x y [<-|[ch [ch' [-> [-> _]]]]]; reflexivity. Qed.

Lemma update_flat : forall b s f,
  update_from_sudoku b s f = fold_left (update_step s f) positions b.
Proof.
  intros b s f. unfold update_from_sudoku, positions. rewrite fold_left_flat_map.
  apply fold_left_ext_fun. intros b' i. revert b'.
  generalize (seq 0 9) as l. induction l as [|j l IH]; intros b''; simpl;
    [reflexivity|]. apply IH.
Qed.

Lemma update_step_other : forall s f b i j r c,
  i < 9 -> j < 9 -> r < 9 -> c < 9 -> (r =? i) && (c =? j) = false ->
  cell_le (b r c) (update_step s f b (i, j) r c).
Proof.
  intros s f b i j r c Hi Hj Hr Hc E. unfold update_step. cbv zeta.
  destruct (digits s (9 * i + j) =? 0).
  - rewrite put_at, E. apply cell_le_refl.
  - destruct (b i j) as [chx| | | |] eqn:E0;
      try (rewrite set_not_empty by (rewrite E0; reflexivity); apply cell_le_refl).
    rewrite (set_at b i j _ f chx r c E0) by assumption. rewrite E.
    destruct (same_house i j r c); [apply cell_le_remove1|apply cell_le_refl].
Qed.

Lemma update_step_self : forall s f b r c, r < 9 -> c < 9 ->
  update_cell_spec (b r c) (digits s (9 * r + c)) (bitboard s (9 * r + c)) f
    (update_step s f b (r, c) r c).
Proof.
  intros s f b r c Hr Hc. unfold update_step, update_cell_spec. cbv zeta.
  destruct (digits s (9 * r + c) =? 0).
  - rewrite put_at, !Nat.eqb_refl. exists (to_choices (bitboard s (9 * r + c))).
    split; [reflexivity|]. intros k Hk. exact Hk.
  - destruct (b r c) as [chx| | | |] eqn:E0;
      try (rewrite set_not_empty by (rewrite E0; reflexivity); exact E0).
    rewrite (set_at b r c _ f chx r c E0) by assumption. rewrite !Nat.eqb_refl.
    cbn [is_empty andb]. unfold digit_u8.
    destruct f; [reflexivity|]. exists chx. reflexivity.
Qed.

Lemma spec_le_left : forall x0 x1 d bb f res,
  cell_le x0 x1 -> update_cell_spec x1 d bb f res -> update_cell_spec x0 d bb f res.
Proof.
  intros x0 x1 d bb f res Hle H. unfold update_cell_spec in *.
  destruct (d =? 0); [exact H|].
  rewrite (cell_le_is_empty x0 x1 Hle) in H.
  destruct (is_empty x0) eqn:E; [exact H|].
  rewrite (cell_le_nonempty x0 x1 E Hle) in H. exact H.
Qed.

Lemma spec_le_right : forall x0 d bb f res res',
  update_cell_spec x0 d bb f res -> cell_le res res' -> update_cell_spec x0 d bb f res'.
Proof.
  intros x0 d bb f res res' H Hle. unfold update_cell_spec in *.
  destruct (d =? 0).
  - destruct H as [ch [-> Hch]].
    destruct Hle as [<-|[ch1 [ch2 [E [-> H12]]]]].
    + exists ch. auto.
    + exists ch2. split; [reflexivity|]. assert (ch1 = ch) by congruence. subst.
      intros k Hk. apply Hch, H12, Hk.
  - destruct (is_empty x0) eqn:E.
    + destruct f.
      * subst res. apply cell_le_nonempty; [reflexivity|exact Hle].
      * destruct H as [ch ->]. exists ch.
        apply cell_le_nonempty; [reflexivity|exact Hle].
    + subst res. apply (cell_le_nonempty _ _ E Hle).
Qed.

Lemma rc_in_cons : forall r c i j L,
  rc_in r c ((i, j) :: L) = ((r =? i) && (c =? j)) || rc_in r c L.
Proof. reflexivity. Qed.

Lemma update_fold_other : forall s f L b r c, r < 9 -> c < 9 ->
  (forall i j, In (i, j) L -> i < 9 /\ j < 9) -> rc_in r c L = false ->
  cell_le (b r c) (fold_left (update_step s f) L b r c).
Proof.
  intros s f L. induction L as [|[i j] L IH]; intros b r c Hr Hc HL Hin;
    cbn [fold_left]; [apply cell_le_refl|].
  rewrite rc_in_cons in Hin. apply orb_false_iff in Hin. destruct Hin as [E Hin].
  destruct (HL i j (or_introl eq_refl)) as [Hi Hj].
  apply cell_le_trans with (update_step s f b (i, j) r c).
  - apply update_step_other; assumption.
  - apply IH; auto. intros i' j' H. apply HL. right. exact H.
Qed.

Lemma update_fold_self : forall s f L b r c, r < 9 -> c < 9 ->
  (forall i j, In (i, j) L -> i < 9 /\ j < 9) ->
  nodup_pairs L = true -> rc_in r c L = true ->
  update_cell_spec (b r c) (digits s (9 * r + c)) (bitboard s (9 * r + c)) f
    (fold_left (update_step s f) L b r c).
Proof.
  intros s f L. induction L as [|[i j] L IH]; intros b r c Hr Hc HL Hnd Hin;
    [discriminate|cbn [fold_left]].
  cbn [nodup_pairs fst snd] in Hnd. apply andb_true_iff in Hnd.
  destruct Hnd as [Hnd1 Hnd2]. apply negb_true_iff in Hnd1.
  destruct (HL i j (or_introl eq_refl)) as [Hi Hj].
  assert (HL' : forall i' j', In (i', j') L -> i' < 9 /\ j' < 9)
    by (intros i' j' H; apply HL; right; exact H).
  rewrite rc_in_cons in Hin.
  destruct ((r =? i) && (c =? j)) eqn:E.
  - apply eqb_pair_true in E. destruct E; subst i j.
    apply spec_le_right with (update_step s f b (r, c) r c).
    + apply update_step_self; assumption.
    + apply update_fold_other; assumption.
  - apply spec_le_left with (update_step s f b (i, j) r c).
    + apply update_step_other; assumption.
    + apply IH; assumption.
Qed.

Lemma nodup_positions : nodup_pairs positions = true.
Proof. vm_compute. reflexivity. Qed.

(** Claim C3, as stated, fails: [update_from_sudoku] does not overwrite a
    cell that already holds a value.  A [Value 3] at the top-left corner
    stays [Value 3] when the grid has the digit 5 there; the claim expects
    [Value 5]. *)
Lemma update_from_sudoku_keeps_value :
  update_from_sudoku corner_value_board corner_five_grid false 0 0 =
  Value 3 (all_choices true).
Proof. vm_compute. reflexivity. Qed.

(** Claim C3 (amended): after [update_from_sudoku b s fixed], each cell
    [(r, c)] with grid digit [d] at [9 * r + c] is: when [d = 0], an [Empty]
    cell whose candidates are among those of the grid's bitmask there (peers
    placed later in the loop may remove some); when [d <> 0] and the cell was
    [Empty], [FixedValue d] if [fixed] and [Value d _] otherwise ([d] taken as
    a [u8]); when [d <> 0] and the cell held a value, the old cell unchanged. *)
Theorem update_from_sudoku_cell : forall b s f r c, r < 9 -> c < 9 ->
  update_cell_spec (b r c) (digits s (9 * r + c)) (bitboard s (9 * r + c)) f
    (update_from_sudoku b s f r c).
Proof.
  intros b s f r c Hr Hc. rewrite update_flat.
  apply update_fold_self; try assumption.
  - intros i j H. apply in_positions, H.
  - apply nodup_positions.
  - apply rc_in_In, in_positions. auto.
Qed.

Lemma update_from_sudoku_cell_witness :
  update_cell_spec (corner_value_board 0 0) 5 1022%Z false
    (update_from_sudoku corner_value_board corner_five_grid false 0 0).
Proof.
  exact (update_from_sudoku_cell corner_value_board corner_five_grid false 0 0
           ltac:(lia) ltac:(lia)).
Defined.

End UpdateFacts.

(* ------------------------------------------------------------------ *)
(** ** Verification against the solution of the clues *)

Module VerifyFacts.
Import Board BoardSpec BoardFacts UpdateFacts.

(** A loop over positions whose steps each rewrite their own cell only. *)
Lemma fold_local : forall (step : Board -> nat * nat -> Board)
    (h : nat -> nat -> Cell -> Cell),
  (forall b i j r c, step b (i, j) r c =
     if (r =? i) && (c =? j) then h r c (b r c) else b r c) ->
  forall L b r c, nodup_pairs L = true ->
  fold_left step L b r c = if rc_in r c L then h r c (b r c) else b r c.
Proof.
  intros step h Hstep L. induction L as [|[i j] L IH]; intros b r c Hnd;
    [reflexivity|cbn [fold_left]].
  cbn [nodup_pairs fst snd] in Hnd. apply andb_true_iff in Hnd.
  destruct Hnd as [Hnd1 Hnd2]. apply negb_true_iff in Hnd1.
  rewrite IH by exact Hnd2. rewrite rc_in_cons, !Hstep.
  destruct ((r =? i) && (c =? j)) eqn:E.
  - apply eqb_pair_true in E. destruct E; subst i j. rewrite Hnd1. reflexivity.
  - reflexivity.
Qed.

Lemma compare_flat : forall sd place solve b,
  compare_with_solution sd place solve b =
  match solve (fixed_sudoku sd place b) with
  | Some sol => Some (fold_left (compare_step sol) positions b)
  | None => None
  end.
Proof.
  intros sd place solve b. unfold compare_with_solution, obind.
  destruct (solve (fixed_sudoku sd place b)) as [sol|]; [|reflexivity].
  apply (f_equal Some). unfold positions. rewrite fold_left_flat_map.
  apply fold_left_ext_fun. intros b' i. revert b'.
  generalize (seq 0 9) as l. induction l as [|j l IH]; intros b'';
    cbn [fold_left map]; [reflexivity|]. apply IH.
Qed.

Lemma compare_step_at : forall sol b i j r c,
  compare_step sol b (i, j) r c =
  if (r =? i) && (c =? j) then recolor (b r c) sol (9 * r + c) else b r c.
Proof.
  intros sol b i j r c. unfold compare_step. cbv zeta.
  destruct ((r =? i) && (c =? j)) eqn:E.
  - apply eqb_pair_true in E. destruct E; subst i j.
    unfold recolor. destruct (b r c) eqn:E0;
      first [exact E0 | destruct (value =? digit_u8 sol (9 * _ + _)); cbv beta iota delta [put]; rewrite !Nat.eqb_refl; reflexivity].
  - destruct (b i j);
      first [reflexivity | destruct (value =? digit_u8 sol (9 * _ + _)); cbv beta iota delta [put]; rewrite E; reflexivity].
Qed.

Lemma fixed_sudoku_fixed_part : forall sd place b,
  fixed_sudoku sd place b = fixed_sudoku sd place (fixed_part b).
Proof.
  intros sd place b. unfold fixed_sudoku. apply fold_left_ext_fun. intros s i.
  apply fold_left_ext_fun. intros s' j. unfold fixed_part.
  destruct (b i j); reflexivity.
Qed.

(** [solved_digit] is a valid completed grid: peers hold distinct digits,
    all in [1..=9]. *)
Lemma solved_digit_valid :
  forallb (fun p => forallb (fun q =>
    negb (peerb (fst p) (snd p) (fst q) (snd q)) ||
    negb (solved_digit (fst p) (snd p) =? solved_digit (fst q) (snd q))) positions)
    positions = true /\
  forallb (fun p => (1 <=? solved_digit (fst p) (snd p)) && (solved_digit (fst p) (snd p) <=? 9))
    positions = true.
Proof. split; vm_compute; reflexivity. Qed.

(** Claim C4, as stated, fails: an [Error] cell is not re-checked.  On a
    board of clues of [solved_digit] with an [Error] cell holding the right
    digit 1 at the top-left corner, [compare_with_solution] leaves the
    [Error] cell as it is. *)
Lemma compare_keeps_error :
  match compare_with_solution ref_default ref_place solved_solver corner_error_board with
  | Some b' => b' 0 0
  | None => default_cell
  end = Error 1 (all_choices false).
Proof. vm_compute. reflexivity. Qed.

(** Claim C4 (amended): when [compare_with_solution] succeeds, the grid it
    checks against is the solver's answer for [fixed_sudoku b], which
    depends on the [FixedValue] cells only; each [Value] or [AnimatedValue]
    cell becomes [AnimatedValue] with animation ["fade-green"] if its digit
    matches the solution and [Error] otherwise, while [Empty], [FixedValue]
    and [Error] cells are left unchanged.  [solve_sudoku] runs this check
    when the full solve fails. *)
Theorem compare_with_solution_recolors : forall sd place solve b b',
  compare_with_solution sd place solve b = Some b' ->
  fixed_sudoku sd place b = fixed_sudoku sd place (fixed_part b) /\
  (exists sol, solve (fixed_sudoku sd place b) = Some sol /\
     forall r c, r < 9 -> c < 9 -> b' r c = recolor (b r c) sol (9 * r + c)) /\
  (forall order, solve (sudoku_of_board sd place b) = None ->
     solve_sudoku sd place solve order b = (b', false)).
Proof.
  intros sd place solve b b' H. split; [apply fixed_sudoku_fixed_part|split].
  - rewrite compare_flat in H.
    destruct (solve (fixed_sudoku sd place b)) as [sol|]; [|discriminate].
    exists sol. split; [reflexivity|]. intros r c Hr Hc.
    assert (Hb : b' = fold_left (compare_step sol) positions b) by congruence.
    rewrite Hb.
    rewrite (fold_local (compare_step sol) (fun r c x => recolor x sol (9 * r + c)))
      by (first [exact (compare_step_at sol) | exact nodup_positions]).
    replace (rc_in r c positions) with true
      by (symmetry; apply rc_in_In, in_positions; auto).
    reflexivity.
  - intros order Hs. unfold solve_sudoku. rewrite Hs, H. reflexivity.
Qed.

Lemma compare_with_solution_recolors_witness :
  compare_with_solution ref_default ref_place solved_solver corner_error_board =
    Some corner_error_board /\
  fixed_sudoku ref_default ref_place corner_error_board =
    fixed_sudoku ref_default ref_place (fixed_part corner_error_board).
Proof.
  assert (H : compare_with_solution ref_default ref_place solved_solver corner_error_board =
                Some corner_error_board) by (vm_compute; reflexivity).
  split; [exact H|].
  exact (proj1 (compare_with_solution_recolors ref_default ref_place solved_solver
                  corner_error_board corner_error_board H)).
Defined.

End VerifyFacts.

(* ------------------------------------------------------------------ *)
(** ** Animated application of a solution *)

Module AnimFacts.
Import Board BoardSpec BoardFacts.

Lemma animated_flat : forall order b sol,
  update_from_sudoku_animated order b sol = fold_left (anim_step sol) order (b, 0%Z).
Proof.
  intros order b sol. unfold update_from_sudoku_animated.
  apply fold_left_ext_fun. intros [b' d] x. reflexivity.
Qed.

Lemma set_fade_at : forall b i j v d r c,
  set_fade b i j v d r c =
  if (r =? i) && (c =? j)
  then (if is_empty (b i j) then AnimatedValue v (all_choices false) d "fade-in" else b i j)
  else b r c.
Proof.
  intros b i j v d r c. unfold set_fade.
  destruct ((r =? i) && (c =? j)) eqn:E.
  - apply eqb_pair_true in E. destruct E; subst.
    destruct (b i j) eqn:E0; cbn [is_empty];
      first [rewrite put_at, !Nat.eqb_refl; reflexivity | exact E0].
  - destruct (b i j); first [rewrite put_at, E; reflexivity | reflexivity].
Qed.

Lemma idx_cell_neq : forall x y, x <> y ->
  (y / 9 =? x / 9) && (y mod 9 =? x mod 9) = false.
Proof.
  intros x y Hxy. apply not_true_iff_false. intros H. apply eqb_pair_true in H.
  destruct H as [H1 H2]. apply Hxy.
  rewrite (Nat.div_mod_eq x 9), (Nat.div_mod_eq y 9). lia.
Qed.

Lemma anim_step_other : forall sol b d x y,
  x <> y -> fst (anim_step sol (b, d) x) (y / 9) (y mod 9) = b (y / 9) (y mod 9).
Proof.
  intros sol b d x y Hxy. unfold anim_step. cbv zeta. cbn [fst].
  destruct (digits sol x =? 0).
  - rewrite put_at, idx_cell_neq by exact Hxy. reflexivity.
  - rewrite set_fade_at, idx_cell_neq by exact Hxy. reflexivity.
Qed.

Lemma anim_untouched : forall sol order b d y,
  existsb (Nat.eqb y) order = false ->
  fst (fold_left (anim_step sol) order (b, d)) (y / 9) (y mod 9) = b (y / 9) (y mod 9).
Proof.
  intros sol order. induction order as [|x order IH]; intros b d y H;
    [reflexivity|cbn [fold_left]].
  cbn [existsb] in H. apply orb_false_iff in H. destruct H as [H1 H2].
  apply Nat.eqb_neq in H1.
  destruct (anim_step sol (b, d) x) as [b1 d1] eqn:Es.
  rewrite IH by exact H2.
  replace b1 with (fst (anim_step sol (b, d) x)) by (rewrite Es; reflexivity).
  apply anim_step_other. auto.
Qed.

Lemma anim_duration : forall sol order b d,
  snd (fold_left (anim_step sol) order (b, d)) = (d + 5 * Z.of_nat (List.length order))%Z.
Proof.
  intros sol order. induction order as [|x order IH]; intros b d;
    cbn [fold_left List.length]; [cbn [snd]; lia|].
  unfold anim_step at 2. cbv zeta. rewrite IH. lia.
Qed.

Lemma anim_fold : forall sol order b d k idx,
  nodup_nat order = true -> nth_error order k = Some idx ->
  fst (fold_left (anim_step sol) order (b, d)) (idx / 9) (idx mod 9) =
  if digits sol idx =? 0 then Empty (to_choices (bitboard sol idx))
  else if is_empty (b (idx / 9) (idx mod 9))
  then AnimatedValue (digit_u8 sol idx) (all_choices false) (d + 5 * Z.of_nat k)%Z "fade-in"
  else b (idx / 9) (idx mod 9).
Proof.
  intros sol order. induction order as [|x order IH]; intros b d k idx Hnd Hk;
    [destruct k; discriminate|cbn [fold_left]].
  cbn [nodup_nat] in Hnd. apply andb_true_iff in Hnd. destruct Hnd as [Hnd1 Hnd2].
  apply negb_true_iff in Hnd1.
  destruct k as [|k].
  - cbn [nth_error] in Hk. injection Hk as <-.
    unfold anim_step at 2. cbv zeta.
    rewrite anim_untouched by exact Hnd1.
    destruct (digits sol x =? 0).
    + rewrite put_at, !Nat.eqb_refl. reflexivity.
    + rewrite set_fade_at, !Nat.eqb_refl. rewrite Z.mul_0_r, Z.add_0_r. reflexivity.
  - cbn [nth_error] in Hk.
    assert (Hx : x <> idx).
    { intros ->. apply nth_error_In in Hk.
      assert (existsb (Nat.eqb idx) order = true)
        by (apply existsb_exists; exists idx; split; [exact Hk|apply Nat.eqb_refl]).
      congruence. }
    destruct (anim_step sol (b, d) x) as [b1 d1] eqn:Es.
    rewrite (IH b1 d1 k idx Hnd2 Hk).
    assert (Hb1 : b1 (idx / 9) (idx mod 9) = b (idx / 9) (idx mod 9)).
    { replace b1 with (fst (anim_step sol (b, d) x)) by (rewrite Es; reflexivity).
      apply anim_step_other. exact Hx. }
    assert (Hd1 : d1 = (d + 5)%Z).
    { replace d1 with (snd (anim_step sol (b, d) x)) by (rewrite Es; reflexivity).
      reflexivity. }
    rewrite Hb1, Hd1.
    replace (d + 5 + 5 * Z.of_nat k)%Z with (d + 5 * Z.of_nat (S k))%Z by lia.
    reflexivity.
Qed.

(** Claim C9, as stated, fails: the delay grows by 5 ms for every visited
    position, blank ones included.  Visiting index 0 (blank in the grid)
    before index 1 (digit 5) gives the cell at row 0, column 1 a delay of
    5 ms, where the claim gives it the initial delay 0. *)
Lemma animated_blank_still_delays :
  fst (update_from_sudoku_animated (seq 0 81) default_board blank_then_five) 0 1 =
  AnimatedValue 5 (all_choices false) 5 "fade-in".
Proof. vm_compute. reflexivity. Qed.

(** Claim C9 (amended): for a visit order without repeated indices, the
    position visited [k]-th (from 0) with grid digit [d] at index [idx] ends
    as [Empty] with the bitmask's candidates when [d = 0], as
    [AnimatedValue d] with animation ["fade-in"] and delay [5 * k] ms when
    [d <> 0] and the cell was [Empty], and unchanged otherwise; the delay
    counter ends at 5 ms per visited position. *)
Theorem update_from_sudoku_animated_delays : forall order b sol,
  nodup_nat order = true ->
  snd (update_from_sudoku_animated order b sol) = (5 * Z.of_nat (List.length order))%Z /\
  forall k idx, nth_error order k = Some idx ->
    fst (update_from_sudoku_animated order b sol) (idx / 9) (idx mod 9) =
    animated_cell (b (idx / 9) (idx mod 9)) sol idx k.
Proof.
  intros order b sol Hnd. rewrite animated_flat. split.
  - rewrite anim_duration. lia.
  - intros k idx Hk. rewrite (anim_fold sol order b 0 k idx Hnd Hk).
    unfold animated_cell. reflexivity.
Qed.

Lemma update_from_sudoku_animated_delays_witness :
  nodup_nat (seq 0 81) = true /\
  fst (update_from_sudoku_animated (seq 0 81) default_board blank_then_five) 0 1 =
  animated_cell (default_board 0 1) blank_then_five 1 1.
Proof.
  assert (H : nodup_nat (seq 0 81) = true) by (vm_compute; reflexivity).
  split; [exact H|].
  exact (proj2 (update_from_sudoku_animated_delays (seq 0 81) default_board
                  blank_then_five H) 1 1 eq_refl).
Defined.

End AnimFacts.

(* ------------------------------------------------------------------ *)
(** ** Display and parsing of the puzzle text *)

Module DisplayFacts.
Import Codec Board BoardSpec BoardFacts Checkers.

Lemma flat_map_singleton : forall {A B : Type} (f : A -> list B) (g : A -> B) l,
  (forall x, In x l -> f x = [g x]) -> flat_map f l = map g l.
Proof.
  intros A B f g l. induction l as [|x l IH]; intros H; [reflexivity|].
  cbn [flat_map map]. rewrite H by (left; reflexivity).
  rewrite IH by (intros y Hy; apply H; right; exact Hy). reflexivity.
Qed.

Lemma cell_str_char : forall x,
  (forall v, cell_value x = Some v -> 1 <= v <= 9) -> cell_str x = [cell_char x].
Proof.
  intros x Hx. unfold cell_str, cell_char, u8_decimal.
  destruct x as [ch|v ch|v|v ch d a|v ch]; [reflexivity| | | |];
    (replace (v <? 10) with true
      by (symmetry; apply Nat.ltb_lt; specialize (Hx v eq_refl); lia));
    reflexivity.
Qed.

Lemma to_string_map : forall b, values_ok b ->
  to_string b = map (fun p => cell_char (b (fst p) (snd p))) positions.
Proof.
  intros b Hb. unfold to_string. apply flat_map_singleton.
  intros [r c] Hin. apply in_positions in Hin. destruct Hin as [Hr Hc].
  cbn [fst snd]. apply cell_str_char. intros v Hv. exact (Hb r c v Hr Hc Hv).
Qed.

Lemma positions_nth_all :
  forallb (fun p => match nth_error positions (9 * fst p + snd p) with
                    | Some q => (fst q =? fst p) && (snd q =? snd p)
                    | None => false
                    end) positions = true.
Proof. vm_compute. reflexivity. Qed.

Lemma positions_nth : forall r c, r < 9 -> c < 9 ->
  nth_error positions (9 * r + c) = Some (r, c).
Proof.
  intros r c Hr Hc. pose proof positions_nth_all as H.
  rewrite forallb_forall in H. specialize (H (r, c) (proj2 (in_positions r c) (conj Hr Hc))).
  cbn [fst snd] in H. destruct (nth_error positions (9 * r + c)) as [[r' c']|];
    [|discriminate].
  apply eqb_pair_true in H. cbn [fst snd] in H. destruct H; subst. reflexivity.
Qed.

(** Claim C10: for a board whose placed digits are all in [1..=9], the
    [Display] string has exactly 81 characters, the character at
    [9 * r + c] is ['.'] for an [Empty] cell and the digit's character for
    a [Value], [FixedValue], [AnimatedValue] or [Error] cell, and the string
    passes [is_valid_game_str]. *)
Theorem to_string_puzzle_format : forall b, values_ok b ->
  List.length (to_string b) = 81 /\
  (forall r c, r < 9 -> c < 9 -> nth_error (to_string b) (9 * r + c) = Some (cell_char (b r c))) /\
  is_valid_game_str (to_string b) = true.
Proof.
  intros b Hb. rewrite (to_string_map b Hb). split; [|split].
  - rewrite length_map. reflexivity.
  - intros r c Hr Hc. rewrite nth_error_map, positions_nth by assumption. reflexivity.
  - unfold is_valid_game_str. rewrite length_map. apply andb_true_iff.
    split; [reflexivity|]. apply forallb_forall. intros ch Hch.
    apply in_map_iff in Hch. destruct Hch as [[r c] [<- Hin]].
    apply in_positions in Hin. destruct Hin as [Hr Hc]. cbn [fst snd].
    unfold cell_char. destruct (cell_value (b r c)) as [v|] eqn:Ev; [|reflexivity].
    specialize (Hb r c v Hr Hc Ev).
    apply orb_true_iff. left. apply andb_true_iff. split; apply N.leb_le; lia.
Qed.

Lemma to_string_puzzle_format_witness :
  values_ok corner_value_board /\ List.length (to_string corner_value_board) = 81.
Proof.
  assert (H : values_ok corner_value_board)
    by (apply values_okb_sound; vm_compute; reflexivity).
  split; [exact H|].
  exact (proj1 (to_string_puzzle_format corner_value_board H)).
Defined.

End DisplayFacts.

Module ParseFacts.
Import Codec Board.

(** Claim C5: [SudokuData::from_str] reads 81 chars and never checks that
    the input ends there: the 82-character string of dots is accepted as a
    puzzle, although the sibling check [is_valid_game_str] rejects it for
    its length. *)
Theorem from_str_accepts_82_chars :
  from_str (repeat 46%N 82) <> None /\ is_valid_game_str (repeat 46%N 82) = false.
Proof.
  split; [|reflexivity].
  intros H. vm_compute in H. discriminate H.
Qed.

End ParseFacts.

(* ------------------------------------------------------------------ *)
(** ** Further properties of the codec *)

Module CodecExtra.
Import Codec CodecFacts.

Lemma compress_loop_len : forall rest acc count last out, 1 <= count <= 52 ->
  compress_loop rest acc count last = Some out ->
  List.length out <= List.length acc + count + List.length rest.
Proof.
  induction rest as [|c rest IH]; intros acc count last out Hc H; cbn [compress_loop] in H.
  - unfold push_repeated in H. destruct (1 <? count) eqn:E.
    + apply Nat.ltb_lt in E.
      destruct (get_letter_count (count - 1) ltac:(lia)) as [l [Hl _]].
      rewrite Hl in H. cbn [obind] in H. injection H as <-.
      rewrite length_app. cbn [List.length]. lia.
    + apply Nat.ltb_ge in E. injection H as <-. rewrite length_app. cbn [List.length]. lia.
  - cbn [List.length]. destruct (N.eqb c last).
    + unfold push_if_full in H. destruct (count =? 52) eqn:E.
      * apply Nat.eqb_eq in E. subst count.
        replace (get_letter (52 - 1)) with (Some 90%N) in H by reflexivity.
        cbn [obind fst snd] in H.
        apply IH in H; [|lia]. rewrite length_app in H. cbn [List.length] in H. lia.
      * apply Nat.eqb_neq in E. cbn [obind fst snd] in H. apply IH in H; lia.
    + destruct (push_repeated acc last count) as [acc'|] eqn:Ep; [|discriminate].
      cbn [obind] in H. apply IH in H; [|lia].
      unfold push_repeated in Ep. destruct (1 <? count) eqn:E.
      * apply Nat.ltb_lt in E.
        destruct (get_letter_count (count - 1) ltac:(lia)) as [l [Hl _]].
        rewrite Hl in Ep. cbn [obind] in Ep. injection Ep as <-.
        rewrite length_app in H. cbn [List.length] in H. lia.
      * apply Nat.ltb_ge in E. injection Ep as <-.
        rewrite length_app in H. cbn [List.length] in H. lia.
Qed.

(** [compress_string] always succeeds and never makes its input longer. *)
Theorem compress_string_not_longer : forall s,
  match compress_string s with
  | Some out => List.length out <= List.length s
  | None => False
  end.
Proof.
  intros [|c rest]; [cbn; lia|].
  rewrite compress_string_cons.
  destruct (compress_loop rest [] 1 c) as [out|] eqn:E.
  - apply compress_loop_len in E; [|lia]. cbn [List.length] in *. lia.
  - apply (compress_loop_some rest [] 1 c); [lia|exact E].
Qed.

(** [get_letter] and [get_count] are inverse on the counts 0 to 51; the
    count 52 is mapped to ['['], which [get_count] does not read as a
    letter; larger counts have no letter. *)
Theorem get_letter_get_count : forall idx,
  match get_letter idx with
  | Some l => (idx <= 51 /\ get_count l = Some idx) \/
              (idx = 52 /\ l = 91%N /\ get_count l = None)
  | None => 52 < idx
  end.
Proof.
  intros idx. destruct (le_lt_dec idx 52) as [H|H].
  - do 53 (destruct idx as [|idx];
      [vm_compute; first [left; split; [lia|reflexivity]
                         | right; split; [reflexivity|split; reflexivity]]|]).
    lia.
  - unfold get_letter.
    replace (idx <=? 25) with false by (symmetry; apply Nat.leb_gt; lia).
    replace (idx <=? 52) with false by (symmetry; apply Nat.leb_gt; lia).
    exact H.
Qed.

End CodecExtra.

(* ------------------------------------------------------------------ *)
(** ** Serialization of candidates and box positions *)

Module CellExtra.
Import Codec Board BoardSpec App.

(** Serializing the candidates of an [Empty] cell and reading them back
    gives the same candidates, and the serialized number is below 512. *)
Theorem from_int_to_int : forall ch,
  from_int (to_int ch) = ch /\ (0 <= to_int ch < 512)%Z.
Proof.
  intros [a0 a1 a2 a3 a4 a5 a6 a7 a8].
  destruct a0, a1, a2, a3, a4, a5, a6, a7, a8;
    (split; [vm_compute; reflexivity | split; vm_compute; congruence]).
Qed.

Lemma to_int_from_int_all :
  forallb (fun n => Z.eqb (to_int (from_int (Z.of_nat n))) (Z.of_nat n))
    (seq 0 512) = true.
Proof. vm_compute. reflexivity. Qed.

Lemma land_511_bit : forall v i, i < 9 ->
  Z.land (Z.land v 511) (Z.shiftl 1 (Z.of_nat i)) = Z.land v (Z.shiftl 1 (Z.of_nat i)).
Proof.
  intros v i Hi. rewrite <- Z.land_assoc. f_equal.
  do 9 (destruct i as [|i]; [reflexivity|]). lia.
Qed.

Lemma from_int_low_bits : forall v, from_int (Z.land v 511) = from_int v.
Proof.
  intros v. unfold from_int. cbn [seq fold_left].
  rewrite !land_511_bit by lia. reflexivity.
Qed.

(** Deserializing any integer with [from_int] and serializing the result
    with [to_int] keeps exactly its 9 low bits (the candidate bits). *)
Theorem to_int_from_int : forall v, to_int (from_int v) = Z.land v 511.
Proof.
  intros v. rewrite <- from_int_low_bits.
  assert (E : Z.land v 511 = (v mod 2 ^ 9)%Z)
    by (change 511%Z with (Z.ones 9); apply Z.land_ones; lia).
  pose proof (Z.mod_pos_bound v (2 ^ 9) ltac:(lia)) as B.
  pose proof to_int_from_int_all as H.
  rewrite forallb_forall in H. specialize (H (Z.to_nat (Z.land v 511)) ltac:(apply in_seq; lia)).
  rewrite Z2Nat.id in H by lia. apply Z.eqb_eq, H.
Qed.

(** [get_only_choice] returns [Some v] exactly for a cell with the single
    candidate [v] (in [1..=9]), and [None] when the number of candidates
    is not 1. *)
Theorem get_only_choice_spec : forall ch,
  match get_only_choice ch with
  | Some v => 1 <= v <= 9 /\ forall k, k < 9 -> choice_get ch k = (k =? v - 1)
  | None => List.length (filter (choice_get ch) (seq 0 9)) <> 1
  end.
Proof.
  intros [a0 a1 a2 a3 a4 a5 a6 a7 a8].
  destruct a0, a1, a2, a3, a4, a5, a6, a7, a8; vm_compute;
    first [ split; [lia|intros k Hk; do 9 (destruct k as [|k]; [reflexivity|]); lia]
          | lia ].
Qed.

(** The cells [get_box_positions row col] lists are those of the 3x3 box of
    [(row, col)]. *)
Theorem get_box_positions_box : forall row col r c, row < 9 -> col < 9 ->
  (In (r, c) (get_box_positions row col) <->
   r < 9 /\ c < 9 /\ r / 3 = row / 3 /\ c / 3 = col / 3).
Proof.
  intros row col r c Hrow Hcol. unfold get_box_positions.
  assert (Br : row / 3 <= 2) by (apply Nat.lt_succ_r, Nat.Div0.div_lt_upper_bound; lia).
  assert (Bc : col / 3 <= 2) by (apply Nat.lt_succ_r, Nat.Div0.div_lt_upper_bound; lia).
  remember (row / 3) as qr eqn:Eqr. remember (col / 3) as qc eqn:Eqc.
  rewrite in_flat_map. split.
  - intros [i [Hi H]]. apply in_map_iff in H. destruct H as [j [E Hj]].
    apply in_seq in Hi, Hj. injection E as Er Ec. subst r c.
    repeat split; try lia; symmetry;
      [apply (Nat.div_unique _ 3 qr i) | apply (Nat.div_unique _ 3 qc j)]; lia.
  - intros [Hr [Hc [E1 E2]]]. exists (r mod 3).
    split; [apply in_seq; pose proof (Nat.mod_upper_bound r 3); lia|].
    apply in_map_iff. exists (c mod 3).
    split; [|apply in_seq; pose proof (Nat.mod_upper_bound c 3); lia].
    rewrite <- E1, <- E2, <- !Nat.div_mod_eq. reflexivity.
Qed.

Lemma get_box_positions_box_witness :
  4 < 9 /\ 7 < 9 /\
  (In (5, 8) (get_box_positions 4 7) <-> 5 < 9 /\ 8 < 9 /\ 5 / 3 = 4 / 3 /\ 8 / 3 = 7 / 3).
Proof.
  split; [lia|split; [lia|]].
  apply (get_box_positions_box 4 7 5 8); lia.
Defined.

Lemma to_choices_int_all :
  forallb (fun n => Z.eqb (to_int (to_choices (Z.of_nat n)))
                          (Z.land (Z.shiftr (Z.of_nat n) 1) 511))
    (seq 0 1024) = true.
Proof. vm_compute. reflexivity. Qed.

Lemma to_choices_low_bits : forall bb, to_choices (Z.land bb (Z.ones 10)) = to_choices bb.
Proof.
  intros bb. unfold to_choices. cbn [seq fold_left].
  rewrite !Z.land_spec, !Z.testbit_ones_nonneg by lia.
  cbn [Z.of_nat]. rewrite !andb_true_r. reflexivity.
Qed.

Lemma shiftr_low_bits : forall bb,
  Z.land (Z.shiftr (Z.land bb (Z.ones 10)) 1) (Z.ones 9) = Z.land (Z.shiftr bb 1) (Z.ones 9).
Proof.
  intros bb. apply Z.bits_inj'. intros n Hn.
  rewrite !Z.land_spec, !Z.shiftr_spec, Z.land_spec by lia.
  rewrite !Z.testbit_ones_nonneg by lia.
  destruct (n <? 9)%Z eqn:E; [|rewrite !andb_false_r; reflexivity].
  apply Z.ltb_lt in E. replace (n + 1 <? 10)%Z with true by (symmetry; apply Z.ltb_lt; lia).
  rewrite andb_true_r. reflexivity.
Qed.

(** The candidates [to_choices] reads from a solver bitmask (bits 1 to 9)
    serialize with [to_int] to that bitmask shifted down by one bit and
    cut to 9 bits. *)
Theorem to_int_to_choices : forall bb,
  to_int (to_choices bb) = Z.land (Z.shiftr bb 1) 511.
Proof.
  intros bb. change 511%Z with (Z.ones 9).
  rewrite <- to_choices_low_bits, <- shiftr_low_bits.
  assert (E : Z.land bb (Z.ones 10) = (bb mod 2 ^ 10)%Z) by (apply Z.land_ones; lia).
  pose proof (Z.mod_pos_bound bb (2 ^ 10) ltac:(lia)) as B.
  pose proof to_choices_int_all as H.
  rewrite forallb_forall in H.
  specialize (H (Z.to_nat (Z.land bb (Z.ones 10))) ltac:(apply in_seq; lia)).
  rewrite Z2Nat.id in H by lia. apply Z.eqb_eq, H.
Qed.

End CellExtra.

(* ------------------------------------------------------------------ *)
(** ** Shareable links: to_compressed and unwrap_params *)

Module LinkExtra.
Import Codec Board BoardSpec App CodecFacts BoardFacts Checkers DisplayFacts.

Lemma to_string_valid_game : forall b, values_ok b ->
  is_valid_game_str (to_string b) = true.
Proof.
  intros b Hb. rewrite (to_string_map b Hb).
  unfold is_valid_game_str. rewrite length_map. apply andb_true_iff.
  split; [reflexivity|]. apply forallb_forall. intros ch Hch.
  apply in_map_iff in Hch. destruct Hch as [[r c] [<- Hin]].
  apply in_positions in Hin. destruct Hin as [Hr Hc]. cbn [fst snd].
  unfold cell_char. destruct (cell_value (b r c)) as [v|] eqn:Ev; [|reflexivity].
  specialize (Hb r c v Hr Hc Ev).
  apply orb_true_iff. left. apply andb_true_iff. split; apply N.leb_le; lia.
Qed.

Lemma to_compressed_decode : forall b, values_ok b ->
  decompress_string (to_compressed b) = Some (to_string b).
Proof.
  intros b Hb. pose proof (to_string_valid_game b Hb) as Hv.
  unfold is_valid_game_str in Hv. apply andb_true_iff in Hv. destruct Hv as [_ Hv].
  assert (Hn : Forall not_letter (to_string b)).
  { apply Forall_forall. intros x Hx. apply codec_char_not_letter.
    rewrite forallb_forall in Hv. exact (Hv x Hx). }
  pose proof (compress_decompress_no_letters (to_string b) Hn) as H.
  unfold to_compressed. destruct (compress_string (to_string b)) as [out|];
    [exact H|discriminate].
Qed.

(** The compressed form of a board whose placed digits are all in [1..=9]
    decompresses back to the board's 81-character [Display] string. *)
Theorem to_compressed_roundtrip : forall b, values_ok b ->
  decompress_string (to_compressed b) = Some (to_string b).
Proof. exact to_compressed_decode. Qed.

Lemma to_compressed_roundtrip_witness :
  values_ok corner_value_board /\
  decompress_string (to_compressed corner_value_board) = Some (to_string corner_value_board).
Proof.
  assert (H : values_ok corner_value_board)
    by (apply values_okb_sound; vm_compute; reflexivity).
  split; [exact H|]. exact (to_compressed_roundtrip corner_value_board H).
Defined.

(** A [sudoku] parameter produced by [to_compressed] from a board whose
    placed digits are in [1..=9] passes [unwrap_params]'s checks: the
    result is what [Sudoku::from_str] makes of the board's [Display] string,
    and [Sudoku::default] only when that parse fails. *)
Theorem unwrap_params_to_compressed :
  forall (sudoku_default : Sudoku) (sudoku_from_str : list rchar -> option Sudoku) b,
  values_ok b ->
  unwrap_params sudoku_default sudoku_from_str (Some (to_compressed b)) =
  match sudoku_from_str (to_string b) with
  | Some s => s
  | None => sudoku_default
  end.
Proof.
  intros sd fs b Hb. unfold unwrap_params. cbn [obind].
  rewrite (to_compressed_decode b Hb). cbn [obind].
  rewrite (to_string_valid_game b Hb). reflexivity.
Qed.

Lemma unwrap_params_to_compressed_witness :
  values_ok corner_value_board /\
  unwrap_params ref_default (fun _ => Some corner_five_grid)
    (Some (to_compressed corner_value_board)) = corner_five_grid.
Proof.
  assert (H : values_ok corner_value_board)
    by (apply values_okb_sound; vm_compute; reflexivity).
  split; [exact H|].
  exact (unwrap_params_to_compressed ref_default (fun _ => Some corner_five_grid)
           corner_value_board H).
Defined.

End LinkExtra.

(* ------------------------------------------------------------------ *)
(** ** Uncompressed game strings *)

Module PlainExtra.
Import Codec Board App CodecFacts.

Lemma decompress_from_plain : forall s acc, Forall not_letter s ->
  decompress_from acc s = Some (acc ++ s).
Proof.
  induction s as [|x s IH]; intros acc Hs; cbn [decompress_from].
  - rewrite app_nil_r. reflexivity.
  - inversion Hs as [|? ? Hx Hs']; subst. unfold not_letter in Hx. rewrite Hx.
    rewrite IH by exact Hs'. rewrite <- app_assoc. reflexivity.
Qed.

Lemma valid_game_plain : forall s, is_valid_game_str s = true -> Forall not_letter s.
Proof.
  intros s Hv. unfold is_valid_game_str in Hv. apply andb_true_iff in Hv.
  destruct Hv as [_ Hv]. apply Forall_forall. intros x Hx.
  apply codec_char_not_letter. rewrite forallb_forall in Hv. exact (Hv x Hx).
Qed.

(** A string without run-length letters passes through [decompress_string]
    unchanged. *)
Theorem decompress_string_plain : forall s, Forall not_letter s ->
  decompress_string s = Some s.
Proof. intros s Hs. exact (decompress_from_plain s [] Hs). Qed.

Lemma decompress_string_plain_witness :
  Forall not_letter (chars "1.2") /\ decompress_string (chars "1.2") = Some (chars "1.2").
Proof.
  assert (H : Forall not_letter (chars "1.2")) by (repeat constructor).
  split; [exact H|]. exact (decompress_string_plain (chars "1.2") H).
Defined.

(** An uncompressed game string (81 characters, ['0'-'9'] or ['.']) given as
    the [sudoku] parameter is also accepted by [unwrap_params]: the result
    is what [Sudoku::from_str] makes of it, and [Sudoku::default] only when
    that parse fails. *)
Theorem unwrap_params_plain :
  forall (sudoku_default : Sudoku) (sudoku_from_str : list rchar -> option Sudoku) s,
  is_valid_game_str s = true ->
  unwrap_params sudoku_default sudoku_from_str (Some s) =
  match sudoku_from_str s with Some x => x | None => sudoku_default end.
Proof.
  intros sd fs s Hv. unfold unwrap_params. cbn [obind].
  unfold decompress_string. rewrite (decompress_from_plain s [] (valid_game_plain s Hv)).
  cbn [obind app]. rewrite Hv. reflexivity.
Qed.

Lemma unwrap_params_plain_witness :
  is_valid_game_str (repeat 46%N 81) = true /\
  unwrap_params BoardSpec.ref_default (fun _ => Some BoardSpec.corner_five_grid)
    (Some (repeat 46%N 81)) = BoardSpec.corner_five_grid.
Proof.
  assert (H : is_valid_game_str (repeat 46%N 81) = true) by reflexivity.
  split; [exact H|].
  exact (unwrap_params_plain BoardSpec.ref_default
           (fun _ => Some BoardSpec.corner_five_grid) (repeat 46%N 81) H).
Defined.

End PlainExtra.

(* ------------------------------------------------------------------ *)
(** ** Parsing with FromStr *)

Module ParseExtra.
Import Board BoardSpec BoardFacts Checkers DisplayFacts App.

Lemma parse_cells_some_iff : forall ps cs b,
  parse_cells ps cs b <> None <->
  List.length ps <= List.length cs /\ forallb from_str_char (firstn (List.length ps) cs) = true.
Proof.
  induction ps as [|[r c] ps IH]; intros cs b; cbn [parse_cells List.length].
  - split; [intros _; split; [lia|reflexivity]|discriminate].
  - destruct cs as [|ch cs]; cbn [List.length firstn forallb].
    + split; [intros H; exfalso; apply H; reflexivity|intros [H _]; lia].
    + unfold from_str_char at 1.
      destruct (ch =? 46)%N; cbn [orb andb].
      * rewrite IH. cbn [orb andb]. split; intros [H1 H2]; split; auto; lia.
      * destruct ((49 <=? ch)%N && (ch <=? 57)%N); cbn [andb].
        -- rewrite IH. cbn [orb andb]. split; intros [H1 H2]; split; auto; lia.
        -- split; [intros H; exfalso; apply H; reflexivity|intros [_ H]; discriminate].
Qed.

(** [FromStr for SudokuData] succeeds exactly on the strings of at least 81
    characters whose first 81 are ['.'] or ['1'..='9']; characters after
    the 81st are not looked at. *)
Theorem from_str_some_iff : forall s,
  from_str s <> None <->
  81 <= List.length s /\ forallb from_str_char (firstn 81 s) = true.
Proof. intros s. unfold from_str. apply parse_cells_some_iff. Qed.

Lemma cell_char_frozen : forall x, (forall v, cell_value x = Some v -> 1 <= v <= 9) ->
  forall rest b0 r c ps,
  parse_cells ((r, c) :: ps) (cell_char x :: rest) b0 =
  parse_cells ps rest (put b0 r c (frozen_cell x)).
Proof.
  intros x Hx rest b0 r c ps. cbn [parse_cells]. unfold cell_char, frozen_cell.
  destruct (cell_value x) as [v|] eqn:Ev; [|reflexivity].
  specialize (Hx v eq_refl).
  replace (N.of_nat (48 + v) =? 46)%N with false by (symmetry; apply N.eqb_neq; lia).
  replace ((49 <=? N.of_nat (48 + v))%N && (N.of_nat (48 + v) <=? 57)%N) with true
    by (symmetry; apply andb_true_iff; split; apply N.leb_le; lia).
  replace (N.of_nat (48 + v) - 48)%N with (N.of_nat v) by lia.
  rewrite Nat2N.id. reflexivity.
Qed.

Lemma parse_cells_map : forall b L b0 rest,
  (forall r c, In (r, c) L -> forall v, cell_value (b r c) = Some v -> 1 <= v <= 9) ->
  exists b', parse_cells L (map (fun p => cell_char (b (fst p) (snd p))) L ++ rest) b0 = Some b' /\
    forall r c, b' r c = if rc_in r c L then frozen_cell (b r c) else b0 r c.
Proof.
  intros b. induction L as [|[r c] L IH]; intros b0 rest HL.
  - exists b0. split; reflexivity.
  - cbn [map app fst snd]. rewrite cell_char_frozen by (apply HL; left; reflexivity).
    destruct (IH (put b0 r c (frozen_cell (b r c))) rest)
      as [b' [E Hb']]; [intros r' c' H; apply HL; right; exact H|].
    exists b'. split; [exact E|]. intros r' c'. rewrite Hb', put_at.
    unfold rc_in. cbn [existsb fst snd]. fold (rc_in r' c' L).
    destruct (rc_in r' c' L); destruct ((r' =? r) && (c' =? c)) eqn:Ex; try reflexivity.
    apply eqb_pair_true in Ex. destruct Ex; subst. reflexivity.
Qed.

(** Reading back the [Display] string of a board whose placed digits are in
    [1..=9] with [FromStr] succeeds; it keeps every digit, now as a
    [FixedValue] clue, and turns every blank into an [Empty] cell with all
    candidates. *)
Theorem from_str_to_string : forall b, values_ok b ->
  exists b', from_str (to_string b) = Some b' /\
    forall r c, r < 9 -> c < 9 -> b' r c = frozen_cell (b r c).
Proof.
  intros b Hb. unfold from_str. rewrite (to_string_map b Hb).
  destruct (parse_cells_map b positions default_board [])
    as [b' [E Hb']].
  - intros r c Hin v Hv. apply in_positions in Hin. destruct Hin as [Hr Hc].
    exact (Hb r c v Hr Hc Hv).
  - rewrite app_nil_r in E. exists b'. split; [exact E|].
    intros r c Hr Hc. rewrite Hb'.
    replace (rc_in r c positions) with true
      by (symmetry; apply rc_in_In, in_positions; auto).
    reflexivity.
Qed.

Lemma from_str_to_string_witness :
  values_ok corner_value_board /\
  exists b', from_str (to_string corner_value_board) = Some b' /\
    forall r c, r < 9 -> c < 9 -> b' r c = frozen_cell (corner_value_board r c).
Proof.
  assert (H : values_ok corner_value_board)
    by (apply values_okb_sound; vm_compute; reflexivity).
  split; [exact H|]. exact (from_str_to_string corner_value_board H).
Defined.

End ParseExtra.

(* ------------------------------------------------------------------ *)
(** ** Board actions of src/actions.rs *)

Module ActionsExtra.
Import Board BoardSpec BoardFacts Checkers App.

Section ActContract.
Variable sudoku_default : Sudoku.
Variable place : Sudoku -> nat -> nat -> Sudoku.
Hypothesis default_digits : forall k, digits sudoku_default k = 0.
Hypothesis default_bits : forall k d, 1 <= d <= 9 ->
  Z.testbit (bitboard sudoku_default k) (Z.of_nat d) = true.
Hypothesis place_digits : forall s i v k,
  digits (place s i v) k = if k =? i then v else digits s k.
Hypothesis place_bits : forall s i v k d, k <> i -> 1 <= d <= 9 ->
  Z.testbit (bitboard (place s i v) k) (Z.of_nat d) =
  Z.testbit (bitboard s k) (Z.of_nat d) && negb (peer_idx i k && (d =? v)).

Lemma unset_cell_value : forall b row col r c,
  values_ok b -> row < 9 -> col < 9 -> r < 9 -> c < 9 ->
  (forall v, b row col <> FixedValue v) ->
  cell_value (unset sudoku_default place b row col r c) =
  if (r =? row) && (c =? col) then None else cell_value (b r c).
Proof.
  intros b row col r c Hok Hrow Hcol Hr Hc Hfix.
  unfold unset. destruct (b row col) as [ch|v ch|v|v ch d a|v ch] eqn:E0;
    [ | | exfalso; exact (Hfix v eq_refl) | | ];
    [ destruct ((r =? row) && (c =? col)) eqn:Ex; [|reflexivity];
      apply eqb_pair_true in Ex; destruct Ex; subst; rewrite E0; reflexivity
    | .. ];
    set (b1 := put b row col (Empty ch));
    (assert (Hok1 : values_ok b1)
      by (intros r' c' w H1 H2 Hw; unfold b1 in Hw; rewrite put_at in Hw;
          destruct ((r' =? row) && (c' =? col)); [discriminate|exact (Hok r' c' w H1 H2 Hw)]));
    (assert (Hm : forall r' c', r' < 9 -> c' < 9 ->
       (digits (sudoku_of_board sudoku_default place b1) (9 * r' + c') =? 0)
       = is_empty (b1 r' c'))
      by (intros r' c' H1 H2; destruct (is_empty (b1 r' c')) eqn:Ee;
          [rewrite (board_digits_zero sudoku_default place default_digits
                      place_digits b1) by assumption; reflexivity
          |apply Nat.eqb_neq; apply (board_digits_nonzero sudoku_default place
                      place_digits b1); assumption]));
    rewrite (update_from_sudoku_matching b1) by assumption;
    rewrite cell_value_refresh; unfold b1; rewrite put_at;
    destruct ((r =? row) && (c =? col)); reflexivity.
Qed.

Lemma toggle_if_available_values : forall b row col v digit ch r c,
  values_ok b -> row < 9 -> col < 9 -> r < 9 -> c < 9 ->
  (forall w, b row col <> FixedValue w) ->
  cell_value (toggle_if_available sudoku_default place v digit ch b row col r c) =
  if (r =? row) && (c =? col)
  then (if v =? digit then None
        else if choice_get ch (digit - 1) then Some digit else None)
  else cell_value (b r c).
Proof.
  intros b row col v digit ch r c Hok Hrow Hcol Hr Hc Hfix.
  unfold toggle_if_available. cbv zeta.
  destruct (v =? digit);
    [rewrite unset_cell_value by assumption;
     destruct ((r =? row) && (c =? col)); reflexivity|].
  destruct (choice_get ch (digit - 1));
    [|rewrite unset_cell_value by assumption;
      destruct ((r =? row) && (c =? col)); reflexivity].
  pose proof (unset_cell_value b row col row col Hok Hrow Hcol Hrow Hcol Hfix) as Hu.
  rewrite !Nat.eqb_refl in Hu. cbn [andb] in Hu.
  destruct (unset sudoku_default place b row col row col) as [chx| | | |] eqn:Eu;
    try discriminate Hu.
  rewrite (set_value_at _ row col digit false chx r c Eu) by assumption.
  destruct ((r =? row) && (c =? col)) eqn:Ex; [reflexivity|].
  rewrite unset_cell_value by assumption. rewrite Ex. reflexivity.
Qed.

(** Pressing a digit key with the cell [(row, col)] selected changes the
    digit of that cell only: an [Empty] cell takes the digit if it is one of
    its candidates; a [Value], [Error] or [AnimatedValue] cell holding the
    digit is cleared, and one holding another digit is cleared and takes the
    new digit if its stored candidates allow it; a [FixedValue] cell is kept.
    Every other cell keeps its digit. *)
Theorem toggle_digit_if_selected_values : forall b row col digit,
  values_ok b -> row < 9 -> col < 9 -> 1 <= digit <= 9 ->
  forall r c, r < 9 -> c < 9 ->
  cell_value (toggle_digit_if_selected sudoku_default place (Some (row, col)) b digit r c) =
  if (r =? row) && (c =? col) then toggled_value (b row col) digit
  else cell_value (b r c).
Proof.
  intros b row col digit Hok Hrow Hcol Hd r c Hr Hc.
  unfold toggle_digit_if_selected.
  destruct (b row col) as [ch|v ch|v|v ch dl an|v ch] eqn:E0.
  - cbn [toggled_value]. destruct (choice_get ch (digit - 1)).
    + rewrite (set_value_at b row col digit false ch r c E0) by assumption. reflexivity.
    + destruct ((r =? row) && (c =? col)) eqn:Ex; [|reflexivity].
      apply eqb_pair_true in Ex. destruct Ex; subst. rewrite E0. reflexivity.
  - rewrite toggle_if_available_values by (try assumption; rewrite E0; discriminate).
    reflexivity.
  - destruct ((r =? row) && (c =? col)) eqn:Ex; [|reflexivity].
    apply eqb_pair_true in Ex. destruct Ex; subst. rewrite E0. reflexivity.
  - rewrite toggle_if_available_values by (try assumption; rewrite E0; discriminate).
    reflexivity.
  - rewrite toggle_if_available_values by (try assumption; rewrite E0; discriminate).
    reflexivity.
Qed.

(** The digit keypad actions, [toggle_digit_if_selected] with a digit in
    [1..=9] and [clear_digit_if_selected], keep the candidate invariant and
    the digit range of a board, whatever cell of the grid is selected. *)
Theorem keypad_actions_keep_invariant : forall active b digit,
  candidates_ok b -> values_ok b -> 1 <= digit <= 9 ->
  match active with Some (row, col) => row < 9 /\ col < 9 | None => True end ->
  (candidates_ok (toggle_digit_if_selected sudoku_default place active b digit) /\
   values_ok (toggle_digit_if_selected sudoku_default place active b digit)) /\
  (candidates_ok (clear_digit_if_selected sudoku_default place active b) /\
   values_ok (clear_digit_if_selected sudoku_default place active b)).
Proof.
  intros [[row col]|] b digit Hinv Hok Hd Ha; [|auto].
  destruct Ha as [Hrow Hcol].
  split; [|apply unset_ok; assumption].
  unfold toggle_digit_if_selected.
  assert (Hset : forall b', candidates_ok b' -> values_ok b' ->
            candidates_ok (set b' row col digit false) /\
            values_ok (set b' row col digit false))
    by (intros b' H1 H2; split; [apply set_candidates_ok|apply set_values_ok]; assumption).
  assert (Htia : forall v ch,
    candidates_ok (toggle_if_available sudoku_default place v digit ch b row col) /\
    values_ok (toggle_if_available sudoku_default place v digit ch b row col)).
  { intros v ch. unfold toggle_if_available. cbv zeta.
    destruct (unset_ok sudoku_default place default_digits default_bits place_digits
                place_bits b row col Hinv Hok Hrow Hcol) as [U1 U2].
    destruct (v =? digit); [auto|].
    destruct (choice_get ch (digit - 1)); auto. }
  destruct (b row col) as [ch|v ch|v|v ch dl an|v ch]; auto.
  destruct (choice_get ch (digit - 1)); auto.
Qed.

(** [unset] on a cell holding a [Value], [Error] or [AnimatedValue] empties
    that cell and keeps the digit of every other cell; on an [Empty] or a
    [FixedValue] cell it leaves the board as it is. *)
Theorem unset_clears_only_cell : forall b row col,
  values_ok b -> row < 9 -> col < 9 ->
  match b row col with
  | Empty _ | FixedValue _ => unset sudoku_default place b row col = b
  | _ => forall r c, r < 9 -> c < 9 ->
      cell_value (unset sudoku_default place b row col r c) =
      if (r =? row) && (c =? col) then None else cell_value (b r c)
  end.
Proof.
  intros b row col Hok Hrow Hcol.
  destruct (b row col) as [ch|v ch|v|v ch dl an|v ch] eqn:E0;
    try (unfold unset; rewrite E0; reflexivity);
    intros r c Hr Hc; apply unset_cell_value; try assumption;
    intros w; rewrite E0; discriminate.
Qed.

Lemma fold_place_digits_in : forall L s k v,
  In (k, v) L -> (forall v', In (k, v') L -> v' = v) ->
  digits (fold_place place L s) k = v.
Proof.
  induction L as [|p L IH]; intros s k v Hin Hu; [destruct Hin|].
  change (fold_place place (p :: L) s) with (fold_place place L (place s (fst p) (snd p))).
  destruct (existsb (fun q => fst q =? k) L) eqn:E.
  - apply existsb_exists in E. destruct E as [[k' v'] [Hq Ek]].
    cbn [fst] in Ek. apply Nat.eqb_eq in Ek. subst k'.
    assert (v' = v) by (apply Hu; right; exact Hq). subst v'.
    apply IH; [exact Hq|intros v' H; apply Hu; right; exact H].
  - rewrite (fold_place_digits_out place place_digits).
    + rewrite place_digits. destruct Hin as [->|Hin].
      * cbn [fst snd]. rewrite Nat.eqb_refl. reflexivity.
      * exfalso. assert (Hf : existsb (fun q => fst q =? k) L = true)
          by (apply existsb_exists; exists (k, v); split; [exact Hin|apply Nat.eqb_refl]).
        congruence.
    + intros q Hq Eq. assert (Hf : existsb (fun q => fst q =? k) L = true)
        by (apply existsb_exists; exists q; split; [exact Hq|apply Nat.eqb_eq; exact Eq]).
      congruence.
Qed.

(** The grid [From<&SudokuData> for Sudoku] hands to the solver carries the
    digit of cell [(r, c)] at index [9 * r + c], and [0] for an [Empty]
    cell. *)
Theorem sudoku_of_board_digits : forall b r c, r < 9 -> c < 9 ->
  digits (sudoku_of_board sudoku_default place b) (9 * r + c) =
  match cell_value (b r c) with Some v => v | None => 0 end.
Proof.
  intros b r c Hr Hc. destruct (cell_value (b r c)) as [v|] eqn:Ev.
  - rewrite (sudoku_of_board_placements sudoku_default place).
    apply fold_place_digits_in.
    + apply in_placements. exists r, c. repeat split; try assumption. lia.
    + intros v' Hin. apply in_placements in Hin.
      destruct Hin as [i [j [Hi [Hj [E Hv]]]]].
      rewrite (Nat.mul_comm 9 r) in E. symmetry in E.
      apply idx_inj in E; [|lia|lia]. destruct E as [-> ->]. congruence.
  - apply (board_digits_zero sudoku_default place default_digits place_digits);
      [assumption|]. destruct (b r c); easy.
Qed.

End ActContract.

Lemma put_put_same : forall b r c x y, put (put b r c x) r c y = put b r c y.
Proof.
  intros b r c x y. apply functional_extensionality. intros r'.
  apply functional_extensionality. intros c'. rewrite !put_at.
  destruct ((r' =? r) && (c' =? c)); reflexivity.
Qed.

Lemma put_self : forall b r c, put b r c (b r c) = b.
Proof.
  intros b r c. apply functional_extensionality. intros r'.
  apply functional_extensionality. intros c'. rewrite put_at.
  destruct ((r' =? r) && (c' =? c)) eqn:E; [|reflexivity].
  apply eqb_pair_true in E. destruct E; subst. reflexivity.
Qed.

Lemma choice_flip_flip : forall ch k, k < 9 ->
  choice_set (choice_set ch k (negb (choice_get ch k))) k
    (negb (choice_get (choice_set ch k (negb (choice_get ch k))) k)) = ch.
Proof.
  intros [a0 a1 a2 a3 a4 a5 a6 a7 a8] k Hk.
  do 9 (destruct k as [|k]; [cbn; rewrite negb_involutive; reflexivity|]). lia.
Qed.

(** Toggling the same candidate twice ([toggle_choice_if_selected] with a
    digit in [1..=9]) gives back the board it started from. *)
Theorem toggle_choice_if_selected_involutive : forall active b digit,
  1 <= digit <= 9 ->
  toggle_choice_if_selected active (toggle_choice_if_selected active b digit) digit = b.
Proof.
  intros [[row col]|] b digit Hd; [|reflexivity].
  unfold toggle_choice_if_selected.
  destruct (b row col) as [ch|v ch|v|v ch dl an|v ch] eqn:E0; try (rewrite E0; reflexivity).
  rewrite put_at, !Nat.eqb_refl. cbn [andb].
  rewrite put_put_same, choice_flip_flip by lia. rewrite <- E0. apply put_self.
Qed.

(** [toggle_choice_if_selected] on a selected [Empty] cell of a board that
    satisfies the candidate invariant always breaks it: the flipped
    candidate no longer matches the digits of the cell's peers. *)
Theorem toggle_choice_breaks_invariant : forall b row col ch digit,
  candidates_ok b -> row < 9 -> col < 9 -> b row col = Empty ch -> 1 <= digit <= 9 ->
  ~ candidates_ok (toggle_choice_if_selected (Some (row, col)) b digit).
Proof.
  intros b row col ch digit Hinv Hrow Hcol E0 Hd Hnew.
  unfold toggle_choice_if_selected in Hnew. rewrite E0 in Hnew.
  set (ch' := choice_set ch (digit - 1) (negb (choice_get ch (digit - 1)))) in Hnew.
  assert (Hv : forall r c, cell_value (put b row col (Empty ch') r c) = cell_value (b r c)).
  { intros r c. rewrite put_at. destruct ((r =? row) && (c =? col)) eqn:E; [|reflexivity].
    apply eqb_pair_true in E. destruct E; subst. rewrite E0. reflexivity. }
  specialize (Hnew row col ch' digit Hrow Hcol
                ltac:(rewrite put_at, !Nat.eqb_refl; reflexivity) Hd).
  specialize (Hinv row col ch digit Hrow Hcol E0 Hd).
  assert (Hflip : choice_get ch' (digit - 1) = negb (choice_get ch (digit - 1)))
    by (unfold ch'; rewrite choice_get_set, Nat.eqb_refl by lia; reflexivity).
  assert (Hsame : (exists r' c', r' < 9 /\ c' < 9 /\ peerb row col r' c' = true /\
                    cell_value (put b row col (Empty ch') r' c') = Some digit) <->
                  (exists r' c', r' < 9 /\ c' < 9 /\ peerb row col r' c' = true /\
                    cell_value (b r' c') = Some digit)).
  { split; intros [r' [c' H]]; exists r', c'; rewrite Hv in *; exact H. }
  rewrite Hsame, Hflip in Hnew. rewrite <- Hinv in Hnew.
  destruct (choice_get ch (digit - 1)); cbn in Hnew; destruct Hnew as [H1 H2];
    first [discriminate (H1 eq_refl) | discriminate (H2 eq_refl)].
Qed.

(** With a selected cell in the grid and an arrow step that cannot overflow
    [i32], [handle_arrow] keeps a cell of the grid selected: it moves to the
    target cell when that cell is in the grid and stays put otherwise. *)
Theorem handle_arrow_in_grid : forall row col dr dc,
  row < 9 -> col < 9 ->
  (- 2 ^ 31 <= dr <= 2 ^ 31 - 9)%Z -> (- 2 ^ 31 <= dc <= 2 ^ 31 - 9)%Z ->
  exists r' c', handle_arrow (Some (row, col)) (dr, dc) = Some (r', c') /\
    r' < 9 /\ c' < 9 /\
    ((0 <= Z.of_nat row + dr < 9 /\ 0 <= Z.of_nat col + dc < 9)%Z ->
       Z.of_nat r' = (Z.of_nat row + dr)%Z /\ Z.of_nat c' = (Z.of_nat col + dc)%Z) /\
    (~ (0 <= Z.of_nat row + dr < 9 /\ 0 <= Z.of_nat col + dc < 9)%Z ->
       r' = row /\ c' = col).
Proof.
  intros row col dr dc Hrow Hcol Hdr Hdc.
  assert (Hi : forall x, x < 9 -> usize_as_i32 x = Z.of_nat x).
  { intros x Hx. unfold usize_as_i32. rewrite Z.mod_small by lia.
    replace (Z.of_nat x <? 2 ^ 31)%Z with true by (symmetry; apply Z.ltb_lt; lia).
    reflexivity. }
  unfold handle_arrow. cbn [fst snd]. rewrite !Hi by assumption.
  destruct (is_valid_cell (Z.of_nat row + dr) (Z.of_nat col + dc)) eqn:Ev;
    unfold is_valid_cell in Ev;
    rewrite ?andb_true_iff, ?andb_false_iff, ?Z.leb_le, ?Z.ltb_lt, ?Z.leb_gt, ?Z.ltb_ge in Ev.
  - eexists _, _. split; [reflexivity|]. split; [lia|split; [lia|]]. split.
    + intros _. split; lia.
    + intros H. exfalso. apply H. lia.
  - exists row, col. split; [reflexivity|]. split; [lia|split; [lia|]]. split.
    + intros H. exfalso. lia.
    + intros _. split; reflexivity.
Qed.

(** [set] on an [Empty] cell writes the digit there ([FixedValue] when
    [fixed], [Value] keeping the cell's candidates otherwise), removes the
    digit from the candidates of the cells of the same row, column and box,
    and leaves every other cell alone; on any other cell it does nothing. *)
Theorem set_effect : forall b row col v f, row < 9 -> col < 9 ->
  match b row col with
  | Empty chx => forall r c, r < 9 -> c < 9 ->
      set b row col v f r c =
      if (r =? row) && (c =? col) then (if f then FixedValue v else Value v chx)
      else if peerb r c row col then remove1 (b r c) v else b r c
  | _ => set b row col v f = b
  end.
Proof.
  intros b row col v f Hrow Hcol.
  destruct (b row col) as [chx|w ch|w|w ch dl an|w ch] eqn:E0;
    try (apply set_not_empty; rewrite E0; reflexivity).
  intros r c Hr Hc. rewrite (set_at b row col v f chx r c E0) by assumption.
  rewrite peer_house. destruct ((r =? row) && (c =? col)); reflexivity.
Qed.

Ltac ref_contract :=
  first [ exact ref_default_digits | exact ref_default_bits
        | exact ref_place_digits | exact ref_place_bits ].

Lemma toggle_digit_if_selected_values_witness :
  values_ok (set default_board 0 0 5 false) /\
  cell_value (toggle_digit_if_selected ref_default ref_place (Some (0, 0))
                (set default_board 0 0 5 false) 5 0 0) = None.
Proof.
  assert (H : values_ok (set default_board 0 0 5 false))
    by (apply values_okb_sound; vm_compute; reflexivity).
  split; [exact H|].
  rewrite (toggle_digit_if_selected_values ref_default ref_place).
  all: first [ref_contract | exact H | lia | vm_compute; reflexivity].
Defined.

Lemma keypad_actions_keep_invariant_witness :
  candidates_ok (set default_board 0 0 5 false) /\
  values_ok (set default_board 0 0 5 false) /\
  (candidates_ok (toggle_digit_if_selected ref_default ref_place (Some (0, 0))
                    (set default_board 0 0 5 false) 7) /\
   values_ok (toggle_digit_if_selected ref_default ref_place (Some (0, 0))
                (set default_board 0 0 5 false) 7)) /\
  (candidates_ok (clear_digit_if_selected ref_default ref_place (Some (0, 0))
                    (set default_board 0 0 5 false)) /\
   values_ok (clear_digit_if_selected ref_default ref_place (Some (0, 0))
                (set default_board 0 0 5 false))).
Proof.
  assert (H1 : candidates_ok (set default_board 0 0 5 false))
    by (apply candidates_okb_sound; vm_compute; reflexivity).
  assert (H2 : values_ok (set default_board 0 0 5 false))
    by (apply values_okb_sound; vm_compute; reflexivity).
  split; [exact H1|split; [exact H2|]].
  apply (keypad_actions_keep_invariant ref_default ref_place).
  all: first [ref_contract | exact H1 | exact H2 | lia | split; lia].
Defined.

Lemma toggle_choice_if_selected_involutive_witness :
  1 <= 3 <= 9 /\
  toggle_choice_if_selected (Some (0, 0))
    (toggle_choice_if_selected (Some (0, 0)) default_board 3) 3 = default_board.
Proof. split; [lia|]. apply (toggle_choice_if_selected_involutive (Some (0, 0)) default_board 3). lia. Defined.

Lemma toggle_choice_breaks_invariant_witness :
  candidates_ok default_board /\
  ~ candidates_ok (toggle_choice_if_selected (Some (0, 0)) default_board 1).
Proof.
  assert (H : candidates_ok default_board)
    by (apply candidates_okb_sound; vm_compute; reflexivity).
  split; [exact H|].
  apply (toggle_choice_breaks_invariant default_board 0 0 (all_choices true) 1 H);
    [lia|lia|reflexivity|lia].
Defined.

Lemma handle_arrow_in_grid_witness :
  exists r' c', handle_arrow (Some (8, 0)) (1%Z, 0%Z) = Some (r', c') /\
    r' < 9 /\ c' < 9 /\
    ((0 <= Z.of_nat 8 + 1 < 9 /\ 0 <= Z.of_nat 0 + 0 < 9)%Z ->
       Z.of_nat r' = (Z.of_nat 8 + 1)%Z /\ Z.of_nat c' = (Z.of_nat 0 + 0)%Z) /\
    (~ (0 <= Z.of_nat 8 + 1 < 9 /\ 0 <= Z.of_nat 0 + 0 < 9)%Z ->
       r' = 8 /\ c' = 0).
Proof. apply (handle_arrow_in_grid 8 0 1 0); lia. Defined.

Lemma unset_clears_only_cell_witness :
  values_ok (set default_board 0 0 5 false) /\
  match set default_board 0 0 5 false 0 0 with
  | Empty _ | FixedValue _ =>
      unset ref_default ref_place (set default_board 0 0 5 false) 0 0 =
      set default_board 0 0 5 false
  | _ => forall r c, r < 9 -> c < 9 ->
      cell_value (unset ref_default ref_place (set default_board 0 0 5 false) 0 0 r c) =
      if (r =? 0) && (c =? 0) then None else cell_value (set default_board 0 0 5 false r c)
  end.
Proof.
  assert (H : values_ok (set default_board 0 0 5 false))
    by (apply values_okb_sound; vm_compute; reflexivity).
  split; [exact H|].
  apply (unset_clears_only_cell ref_default ref_place).
  all: first [ref_contract | exact H | lia].
Defined.

Lemma sudoku_of_board_digits_witness :
  digits (sudoku_of_board ref_default ref_place corner_value_board) (9 * 0 + 0) = 3.
Proof.
  rewrite (sudoku_of_board_digits ref_default ref_place).
  all: first [ref_contract | lia | reflexivity].
Defined.

Lemma set_effect_witness :
  0 < 9 /\ 0 < 9 /\
  match default_board 0 0 with
  | Empty chx => forall r c, r < 9 -> c < 9 ->
      set default_board 0 0 5 false r c =
      if (r =? 0) && (c =? 0) then (if false then FixedValue 5 else Value 5 chx)
      else if peerb r c 0 0 then remove1 (default_board r c) 5 else default_board r c
  | _ => set default_board 0 0 5 false = default_board
  end.
Proof. split; [lia|split; [lia|]]. apply (set_effect default_board 0 0 5 false); lia. Defined.

End ActionsExtra.
